(** * hdmi-in-display: a shallow embedding of the offset loader, the tile
    mapping shader, the runtime key handler and the capture recovery loop. *)

From Stdlib Require Import String Ascii ZArith QArith Qround Qminmax Lia Lqa.
From stdpp Require Import base list.

Open Scope Z_scope.

(* ------------------------------------------------------------------ *)
(** ** Offset files: [parseXYLine] and [loadOffsetsFromModuleFiles]    *)
(* ------------------------------------------------------------------ *)
Module Offsets.

(** [line.find_first_not_of(" \t\r\n")] and friends use this set. *)
Definition is_trim_char (c : ascii) : bool :=
  match c with
  | " "%char => true
  | "009"%char => true
  | "013"%char => true
  | "010"%char => true
  | _ => false
  end.

(** [std::isspace] in the C locale, used by [operator>>] to skip blanks. *)
Definition is_c_space (c : ascii) : bool :=
  match c with
  | " "%char | "009"%char | "010"%char | "011"%char | "012"%char | "013"%char => true
  | _ => false
  end.

Fixpoint drop_trim (l : list ascii) : list ascii :=
  match l with
  | [] => []
  | c :: r => if is_trim_char c then drop_trim r else l
  end.

(** [s = line.substr(a, b - a + 1)]: the line without leading and
    trailing characters of the trim set. *)
Definition trim (l : list ascii) : list ascii :=
  rev (drop_trim (rev (drop_trim l))).

Fixpoint skip_space (l : list ascii) : list ascii :=
  match l with
  | [] => []
  | c :: r => if is_c_space c then skip_space r else l
  end.

Definition digit_val (c : ascii) : option Z :=
  let n := Z.of_nat (nat_of_ascii c) in
  if (48 <=? n) && (n <=? 57) then Some (n - 48) else None.

(** Greedy decimal digits; returns the digits read (count, value) and the rest. *)
Fixpoint read_digits (l : list ascii) (cnt : nat) (acc : Z) : nat * Z * list ascii :=
  match l with
  | [] => (cnt, acc, [])
  | c :: r =>
      match digit_val c with
      | Some d => read_digits r (S cnt) (acc * 10 + d)
      | None => (cnt, acc, l)
      end
  end.

Definition INT_MIN : Z := - 2 ^ 31.
Definition INT_MAX : Z := 2 ^ 31 - 1.

(** [iss >> x] for an [int x] in the "C" locale: skip white space, an
    optional sign, at least one decimal digit, and the value must fit an
    [int] (otherwise failbit is set). *)
Definition read_int (l : list ascii) : option (Z * list ascii) :=
  let l := skip_space l in
  let '(neg, body) :=
    match l with
    | "-"%char :: r => (true, r)
    | "+"%char :: r => (false, r)
    | _ => (false, l)
    end in
  match read_digits body 0 0 with
  | (O, _, _) => None
  | (_, v, rest) =>
      let v := if neg then - v else v in
      if (INT_MIN <=? v) && (v <=? INT_MAX) then Some (v, rest) else None
  end.

(** [static bool parseXYLine(const std::string &line, int &x, int &y)]:
    [None] is the [false] result. *)
Definition parseXYLine (line : string) : option (Z * Z) :=
  let s := trim (list_ascii_of_string line) in
  match s with
  | [] => None
  | c :: _ =>
      if Ascii.eqb c "#"%char then None
      else match read_int s with
           | None => None
           | Some (x, r) =>
               match read_int r with
               | None => None
               | Some (y, _) => Some (x, y)
               end
           end
  end.

(** The inner [while (std::getline(f, line) && fillIndex < out.size())]
    loop over one opened file; returns the table and [fillIndex]. *)
Fixpoint fill_lines (lines : list string) (out : list Z) (fillIndex : nat)
  : list Z * nat :=
  match lines with
  | [] => (out, fillIndex)
  | line :: rest =>
      if decide (fillIndex < length out)%nat then
        match parseXYLine line with
        | None => fill_lines rest out fillIndex
        | Some (x, y) =>
            fill_lines rest (<[S fillIndex := y]> (<[fillIndex := x]> out))
                       (S (S fillIndex))
        end
      else (out, fillIndex)
  end.

(** The outer loop over the three module names.  Each module is the
    content of the first candidate path that exists and opens, as lines, or
    [None] when neither the exe-dir nor the cwd candidate is found. *)
Fixpoint fill_modules (files : list (option (list string))) (out : list Z)
  (fillIndex : nat) : list Z * nat :=
  match files with
  | [] => (out, fillIndex)
  | None :: rest => fill_modules rest out fillIndex
  | Some lines :: rest =>
      let '(out', k) := fill_lines lines out fillIndex in
      fill_modules rest out' k
  end.

(** [out.assign(150 * 2, 0)], then fill. *)
Definition loadOffsetsFromModuleFiles (files : list (option (list string))) : list Z :=
  fst (fill_modules files (replicate (150 * 2) 0%Z) 0).

(** Table entry [i] as the shader reads it: [offsetxy1[i]] = (out[2i], out[2i+1]). *)
Definition entry (out : list Z) (i : nat) : Z * Z :=
  (default 0%Z (out !! (2 * i)%nat), default 0%Z (out !! (2 * i + 1)%nat)).

(** The lines the file really contributes, in order. *)
Definition valid_entries (lines : list string) : list Z :=
  concat (map (fun l => match parseXYLine l with
                        | Some (x, y) => [x; y]
                        | None => []
                        end) lines).

Definition all_entries (files : list (option (list string))) : list Z :=
  concat (map (fun f => match f with Some ls => valid_entries ls | None => [] end) files).

(** Lines the spec calls malformed: blank, a comment, or not two numbers. *)
Definition is_blank (line : string) : bool :=
  match trim (list_ascii_of_string line) with [] => true | _ => false end.

Definition is_comment (line : string) : bool :=
  match trim (list_ascii_of_string line) with
  | c :: _ => Ascii.eqb c "#"%char
  | [] => false
  end.

End Offsets.

(* ------------------------------------------------------------------ *)
(** ** The tile mapping fragment shader [shader.frag.glsl]            *)
(* ------------------------------------------------------------------ *)
(** GLSL [int] is modelled as [Z] and [float] as a rational [Q].  The
    tile geometry works on whole pixel sizes and on [gl_FragCoord], which
    sits on half pixels; these values and their sums are exact in
    single precision, so that part is computed exactly.  The sample
    coordinate is not: the division by [u_fullInputSize], the rotation
    about the centre and the flips round each result to the nearest
    IEEE-754 single-precision value ([round32], ties to even, subnormals
    included; overflow, which these values never reach, is not modelled). *)
Module Shader.
Local Open Scope Q_scope.

Record vec2 := V2 { vx : Q; vy : Q }.
Record ivec2 := IV2 { ix : Z; iy : Z }.

(** The uniforms [main] reads. *)
Record uniforms := {
  segmentIndex : Z;
  u_fullInputSize : vec2;
  u_segmentsX : Z;
  u_segmentsY : Z;
  u_subBlockSize : vec2;
  u_tileW : Q;
  u_tileH : Q;
  u_spacingX : Q;
  u_spacingY : Q;
  u_marginX : Q;
  u_numTilesPerRow : Z;
  u_numTilesPerCol : Z;
  offsetxy1 : list ivec2;          (* ivec2 offsetxy1[150] *)
  rot : Z;
  flip_x : Z;
  flip_y : Z;
  gap_count : Z;
  gap_rows : list Z;               (* int gap_rows[8] *)
  inputTilesTopToBottom : Z }.

Definition Qltb (a b : Q) : bool := negb (Qle_bool b a).

(** [int(f)] on a float truncates toward zero. *)
Definition glsl_int (q : Q) : Z :=
  if Qle_bool 0 q then Qfloor q else (- Qfloor (- q))%Z.

(** GLSL [clamp(x, lo, hi)] = [min(max(x, lo), hi)]. *)
Definition Qclamp (x lo hi : Q) : Q := Qmin (Qmax x lo) hi.
Definition Zclamp (x lo hi : Z) : Z := Z.min (Z.max x lo) hi.

(** Single-precision rounding.  [scaled a d e] is the fraction
    [a / d * 2^-e] as a numerator and a denominator. *)
Definition scaled (a d e : Z) : Z * Z :=
  if (0 <=? e)%Z then (a, d * 2 ^ e)%Z else (a * 2 ^ (- e), d)%Z.

(** [N / D] rounded to the nearest integer, ties to the even one. *)
Definition round_half_even (N D : Z) : Z :=
  let q := (N / D)%Z in let r := (N mod D)%Z in
  if (2 * r <? D)%Z then q else if (D <? 2 * r)%Z then (q + 1)%Z
  else if Z.even q then q else (q + 1)%Z.

(** The exponent [e] of the last significand bit for the magnitude
    [a / d]: the one that puts [a / d * 2^-e] in [2^23, 2^24), and at
    least -149 (the subnormal range). *)
Definition float32_exponent (a d : Z) : Z :=
  let e0 := (Z.log2 a - Z.log2 d - 23)%Z in
  let '(N, D) := scaled a d e0 in
  let e := if (2 ^ 23 <=? N / D)%Z then e0 else (e0 - 1)%Z in
  Z.max e (-149).

(** The single-precision value nearest to [x]. *)
Definition round32 (x : Q) : Q :=
  let n := Qnum x in let d := Zpos (Qden x) in
  if Z.eqb n 0 then 0 else
  let a := Z.abs n in
  let e := float32_exponent a d in
  let '(N, D) := scaled a d e in
  let m := (Z.sgn n * round_half_even N D)%Z in
  if (0 <=? e)%Z then inject_Z (m * 2 ^ e) else Qmake m (Z.to_pos (2 ^ (- e))).

(** [vec2 rotate90_centered(vec2 uv, int k)]: [p = uv - c] and [r + c]
    are rounded; the quarter turn itself only swaps and negates. *)
Definition rotate90_centered (uv : vec2) (k : Z) : vec2 :=
  let c := V2 (1 # 2) (1 # 2) in
  let p := V2 (round32 (vx uv - vx c)) (round32 (vy uv - vy c)) in
  let kk := Z.land k 3 in
  let r :=
    if Z.eqb kk 0 then p
    else if Z.eqb kk 1 then V2 (vy p) (- vx p)
    else if Z.eqb kk 2 then V2 (- vx p) (- vy p)
    else V2 (- vy p) (vx p) in
  V2 (round32 (vx r + vx c)) (round32 (vy r + vy c)).

(** [bool isGapZero(int gapIdx)]: [for (i = 0; i < 8; ++i) { if (i >=
    gap_count) break; if (gap_rows[i] == gapIdx) return true; }]. *)
Fixpoint isGapZero_loop (gc : Z) (gr : list Z) (gapIdx : Z) (i : nat) (fuel : nat) : bool :=
  match fuel with
  | O => false
  | S f =>
      if (gc <=? Z.of_nat i)%Z then false
      else if Z.eqb (nth i gr 0%Z) gapIdx then true
      else isGapZero_loop gc gr gapIdx (S i) f
  end.

Definition isGapZero (u : uniforms) (gapIdx : Z) : bool :=
  isGapZero_loop (gap_count u) (gap_rows u) gapIdx 0 8.

(** [computeTotalGridHeight(numRows, tileH, spacingY)]: the loop
    [for (r = 0; r < numRows; ++r)] from iteration [r] on. *)
Fixpoint total_height_loop (u : uniforms) (numRows : Z) (tileH spacingY : Q)
  (r : nat) (fuel : nat) (h : Q) : Q :=
  match fuel with
  | O => h
  | S f =>
      if (Z.of_nat r <? numRows)%Z then
        let h := h + tileH in
        let h := if (Z.of_nat r <? numRows - 1)%Z && negb (isGapZero u (Z.of_nat r + 1))
                 then h + spacingY else h in
        total_height_loop u numRows tileH spacingY (S r) f h
      else h
  end.

Definition computeTotalGridHeight (u : uniforms) (numRows : Z) (tileH spacingY : Q) : Q :=
  total_height_loop u numRows tileH spacingY 0 (Z.to_nat numRows) 0.

(** [int tileCol = int((outPx.x - u_marginX) / (u_tileW + u_spacingX))] *)
Definition tile_col (u : uniforms) (outPx : vec2) : Z :=
  glsl_int ((vx outPx - u_marginX u) / (u_tileW u + u_spacingX u)).

Definition total_grid_h (u : uniforms) : Q :=
  computeTotalGridHeight u (u_numTilesPerCol u) (u_tileH u) (u_spacingY u).

(** The [tileRow] search loop, from iteration [r] on with [yAccTop]. *)
Fixpoint tile_row_loop (u : uniforms) (yFromTop : Q) (r : nat) (fuel : nat) (yAccTop : Q) : Z :=
  match fuel with
  | O => (-1)%Z
  | S f =>
      if (Z.of_nat r <? u_numTilesPerCol u)%Z then
        let rowStart := yAccTop in
        let rowEnd := rowStart + u_tileH u in
        if Qle_bool rowStart yFromTop && Qltb yFromTop rowEnd then Z.of_nat r
        else
          let gapAfterThisRow := isGapZero u (Z.of_nat r + 1) in
          tile_row_loop u yFromTop (S r) f
            (if negb gapAfterThisRow then rowEnd + u_spacingY u else rowEnd)
      else (-1)%Z
  end.

Definition tile_row (u : uniforms) (outPx : vec2) : Z :=
  tile_row_loop u (total_grid_h u - vy outPx) 0 (Z.to_nat (u_numTilesPerCol u)) 0.

(** [tileStartY_top]: [for (r = 0; r < tileRow; ++r)]. *)
Fixpoint start_top_loop (u : uniforms) (r : nat) (fuel : nat) (acc : Q) : Q :=
  match fuel with
  | O => acc
  | S f =>
      let acc := acc + u_tileH u in
      let acc := if negb (isGapZero u (Z.of_nat r + 1)) then acc + u_spacingY u else acc in
      start_top_loop u (S r) f acc
  end.

(** The nominal (unshifted) tile origin [(tileStartX, tileStartY)]. *)
Definition nominal_start (u : uniforms) (tileCol tileRow : Z) : vec2 :=
  V2 (u_marginX u + inject_Z tileCol * (u_tileW u + u_spacingX u))
     (total_grid_h u - (start_top_loop u 0 (Z.to_nat tileRow) 0 + u_tileH u)).

(** [ivec2 off = offsetxy1[clamp(tileRow * u_numTilesPerRow + tileCol, 0, 149)]] *)
Definition tile_offset (u : uniforms) (tileCol tileRow : Z) : ivec2 :=
  let globalIndex := Zclamp (tileRow * u_numTilesPerRow u + tileCol)%Z 0 149 in
  nth (Z.to_nat globalIndex) (offsetxy1 u) (IV2 0 0).

(** [tileRectStart]: the nominal origin moved by the tile's offset. *)
Definition tile_rect_start (u : uniforms) (tileCol tileRow : Z) : vec2 :=
  let s := nominal_start u tileCol tileRow in
  let off := tile_offset u tileCol tileRow in
  V2 (vx s + inject_Z (ix off)) (vy s + inject_Z (iy off)).

(** What the fragment shows: the background colour or a texture sample at
    the (transformed) input coordinate; the YUV to RGB colour conversion
    that follows the sample is not modelled. *)
Inductive frag := Background | Sampled (uvTrans : vec2).

(** [void main()] of [shader.frag.glsl], up to the texture fetch. *)
Definition shader_main (u : uniforms) (outPx : vec2) : frag :=
  let segIdx := (Zclamp (segmentIndex u) 1 16 - 1)%Z in
  let segCol := Z.rem segIdx (u_segmentsX u) in
  let segRow := Z.quot segIdx (u_segmentsX u) in
  let subBlockOrigin := V2 (inject_Z segCol * vx (u_subBlockSize u))
                           (inject_Z segRow * vy (u_subBlockSize u)) in
  let tileCol := tile_col u outPx in
  let tileRow := tile_row u outPx in
  if ((tileCol <? 0) || (u_numTilesPerRow u <=? tileCol) ||
      (tileRow <? 0) || (u_numTilesPerCol u <=? tileRow))%Z then Background
  else
    let rs := tile_rect_start u tileCol tileRow in
    let re := V2 (vx rs + u_tileW u) (vy rs + u_tileH u) in
    if negb (Qle_bool (vx rs) (vx outPx) && Qltb (vx outPx) (vx re) &&
             Qle_bool (vy rs) (vy outPx) && Qltb (vy outPx) (vy re)) then Background
    else
      let pxInTileX := vx outPx - vx rs in
      let pxInTileY := vy outPx - vy rs in
      let sourceTileRow :=
        if Z.eqb (inputTilesTopToBottom u) 1 then tileRow
        else (u_numTilesPerCol u - 1 - tileRow)%Z in
      let fetchX := u_tileW u * inject_Z tileCol + pxInTileX in
      let fetchY := u_tileH u * inject_Z sourceTileRow + pxInTileY in
      let ic := V2 (vx subBlockOrigin + fetchX) (vy subBlockOrigin + fetchY) in
      let fis := u_fullInputSize u in
      let ic := V2 (Qclamp (vx ic) 0 (vx fis - 1)) (Qclamp (vy ic) 0 (vy fis - 1)) in
      let uvc := V2 (round32 (vx ic / vx fis)) (round32 (vy ic / vy fis)) in
      let t := rotate90_centered uvc (rot u) in
      let t := if Z.eqb (flip_x u) 1 then V2 (round32 (1 - vx t)) (vy t) else t in
      let t := if Z.eqb (flip_y u) 1 then V2 (vx t) (round32 (1 - vy t)) else t in
      Sampled (V2 (Qclamp (vx t) 0 1) (Qclamp (vy t) 0 1)).

(** The GapSet as the shader sees it: the first [gap_count] entries of
    [gap_rows]. *)
Definition gap_set (u : uniforms) : list Z :=
  firstn (Z.to_nat (gap_count u)) (gap_rows u).

(** The grid of the source's defaults: 10 x 15 tiles of 128 x 144 pixels,
    spacing (98, 90), gaps after rows 5 and 10; the first tile is moved
    by (-3, 5). *)
Definition default_uniforms : uniforms := {|
  segmentIndex := 1;
  u_fullInputSize := V2 3840 2160;
  u_segmentsX := 3;
  u_segmentsY := 3;
  u_subBlockSize := V2 1280 720;
  u_tileW := 128;
  u_tileH := 144;
  u_spacingX := 98;
  u_spacingY := 90;
  u_marginX := 0;
  u_numTilesPerRow := 10;
  u_numTilesPerCol := 15;
  offsetxy1 := [IV2 (-3) 5];
  rot := 0;
  flip_x := 0;
  flip_y := 1;
  gap_count := 2;
  gap_rows := [5; 10; 0; 0; 0; 0; 0; 0]%Z;
  inputTilesTopToBottom := 1 |}.

(** A two-row grid whose first tile has its nominal origin at (100, 200)
    and the offset (-3, 5). *)
Definition example_uniforms : uniforms := {|
  segmentIndex := 1;
  u_fullInputSize := V2 1000 1000;
  u_segmentsX := 2;
  u_segmentsY := 2;
  u_subBlockSize := V2 500 500;
  u_tileW := 50;
  u_tileH := 100;
  u_spacingX := 10;
  u_spacingY := 100;
  u_marginX := 100;
  u_numTilesPerRow := 1;
  u_numTilesPerCol := 2;
  offsetxy1 := [IV2 (-3) 5];
  rot := 0;
  flip_x := 0;
  flip_y := 0;
  gap_count := 0;
  gap_rows := [0; 0; 0; 0; 0; 0; 0; 0]%Z;
  inputTilesTopToBottom := 1 |}.

End Shader.

(* ------------------------------------------------------------------ *)
(** ** The runtime control surface: the SDL key handler of [main]       *)
(* ------------------------------------------------------------------ *)
Module Keys.

Inductive key :=
  | SDLK_ESCAPE | SDLK_f | SDLK_k | SDLK_h | SDLK_v | SDLK_r | SDLK_o | SDLK_t
  | SDLK_1 | SDLK_2 | SDLK_3 | SDLK_s | SDLK_other.

(** The transform state [int flip_x, flip_y, rotation]. *)
Record transform := { rotation : Z; flip_x : Z; flip_y : Z }.

(** [int flip_x = 0, flip_y = 1, rotation = 0;] *)
Definition initial_transform : transform := {| rotation := 0; flip_x := 0; flip_y := 1 |}.

(** C's [!x] on an [int]. *)
Definition c_not (x : Z) : Z := if Z.eqb x 0 then 1 else 0.

(** The effect of one [SDL_KEYDOWN] on the transform state; the other keys
    (full screen, reload, restart, pattern, segment, screenshot) leave it
    unchanged. *)
Definition handle_key (t : transform) (k : key) : transform :=
  match k with
  | SDLK_h => {| rotation := rotation t; flip_x := c_not (flip_x t); flip_y := flip_y t |}
  | SDLK_v => {| rotation := rotation t; flip_x := flip_x t; flip_y := c_not (flip_y t) |}
  | SDLK_r => {| rotation := Z.land (rotation t + 2) 3; flip_x := flip_x t; flip_y := flip_y t |}
  | _ => t
  end.

Definition run_keys (ks : list key) : transform := fold_left handle_key ks initial_transform.

End Keys.

(* ------------------------------------------------------------------ *)
(** ** The capture recovery loop of [main] (PR_DESCRIPTION.md version)  *)
(* ------------------------------------------------------------------ *)
(** The state shared by the main (render) thread and the background
    reopen thread.  Times are [steady_clock] readings in milliseconds; the
    environment (driver results, clock) is given as the events of a run. *)
Module Supervisor.

Definition PATTERN_TIMEOUT_MS : Z := 800.
Definition RECOVERY_GRACE_MS : Z := 3000.
Definition EINVAL_RESTART_THRESHOLD : Z := 8.

(** Where the detached thread of [start_background_reopen] is: not
    running, about to call [manual_restart_v4l_only], or in its verify loop. *)
Inductive bg_phase := BgIdle | BgRestart | BgVerify.

Record state := {
  einval_count : Z;
  signal_lost : bool;
  pattern_on : bool;                 (* last argument of setPattern *)
  need_gl_update : bool;             (* std::atomic<bool> need_gl_update *)
  auto_reopen_in_progress : bool;    (* std::atomic<bool> auto_reopen_in_progress *)
  bg : bg_phase;
  last_good_frame : Z;
  last_recovered_time : option Z;    (* None is clock::time_point() *)
  fd_open : bool;                    (* fd >= 0 *)
  device_closes : nat;               (* close(fd) by the recovery paths *)
  device_opens : nat;                (* open(DEVICE) by the recovery paths *)
  soft_restart_rounds : nat }.       (* in-place restart_v4l_stream rounds of main *)

Definition set_einval (v : Z) (s : state) : state :=
  {| einval_count := v; signal_lost := signal_lost s; pattern_on := pattern_on s;
     need_gl_update := need_gl_update s; auto_reopen_in_progress := auto_reopen_in_progress s;
     bg := bg s; last_good_frame := last_good_frame s; last_recovered_time := last_recovered_time s;
     fd_open := fd_open s; device_closes := device_closes s; device_opens := device_opens s;
     soft_restart_rounds := soft_restart_rounds s |}.

Definition set_signal_lost (v : bool) (s : state) : state :=
  {| einval_count := einval_count s; signal_lost := v; pattern_on := pattern_on s;
     need_gl_update := need_gl_update s; auto_reopen_in_progress := auto_reopen_in_progress s;
     bg := bg s; last_good_frame := last_good_frame s; last_recovered_time := last_recovered_time s;
     fd_open := fd_open s; device_closes := device_closes s; device_opens := device_opens s;
     soft_restart_rounds := soft_restart_rounds s |}.

(** [setPattern(on)] *)
Definition setPattern (v : bool) (s : state) : state :=
  {| einval_count := einval_count s; signal_lost := signal_lost s; pattern_on := v;
     need_gl_update := need_gl_update s; auto_reopen_in_progress := auto_reopen_in_progress s;
     bg := bg s; last_good_frame := last_good_frame s; last_recovered_time := last_recovered_time s;
     fd_open := fd_open s; device_closes := device_closes s; device_opens := device_opens s;
     soft_restart_rounds := soft_restart_rounds s |}.

Definition set_need_gl_update (v : bool) (s : state) : state :=
  {| einval_count := einval_count s; signal_lost := signal_lost s; pattern_on := pattern_on s;
     need_gl_update := v; auto_reopen_in_progress := auto_reopen_in_progress s;
     bg := bg s; last_good_frame := last_good_frame s; last_recovered_time := last_recovered_time s;
     fd_open := fd_open s; device_closes := device_closes s; device_opens := device_opens s;
     soft_restart_rounds := soft_restart_rounds s |}.

Definition set_bg (reopen : bool) (p : bg_phase) (s : state) : state :=
  {| einval_count := einval_count s; signal_lost := signal_lost s; pattern_on := pattern_on s;
     need_gl_update := need_gl_update s; auto_reopen_in_progress := reopen;
     bg := p; last_good_frame := last_good_frame s; last_recovered_time := last_recovered_time s;
     fd_open := fd_open s; device_closes := device_closes s; device_opens := device_opens s;
     soft_restart_rounds := soft_restart_rounds s |}.

(** [last_good_frame = now; last_recovered_time = now;] *)
Definition mark_good (now : Z) (s : state) : state :=
  {| einval_count := einval_count s; signal_lost := signal_lost s; pattern_on := pattern_on s;
     need_gl_update := need_gl_update s; auto_reopen_in_progress := auto_reopen_in_progress s;
     bg := bg s; last_good_frame := now; last_recovered_time := Some now;
     fd_open := fd_open s; device_closes := device_closes s; device_opens := device_opens s;
     soft_restart_rounds := soft_restart_rounds s |}.

(** [close(fd); fd = -1;] when [fd >= 0], then optionally a successful
    [open(DEVICE)]. *)
Definition cycle_device (opened : bool) (s : state) : state :=
  {| einval_count := einval_count s; signal_lost := signal_lost s; pattern_on := pattern_on s;
     need_gl_update := need_gl_update s; auto_reopen_in_progress := auto_reopen_in_progress s;
     bg := bg s; last_good_frame := last_good_frame s; last_recovered_time := last_recovered_time s;
     fd_open := opened;
     device_closes := (if fd_open s then S (device_closes s) else device_closes s);
     device_opens := (if opened then S (device_opens s) else device_opens s);
     soft_restart_rounds := soft_restart_rounds s |}.

Definition count_soft_restart_round (s : state) : state :=
  {| einval_count := einval_count s; signal_lost := signal_lost s; pattern_on := pattern_on s;
     need_gl_update := need_gl_update s; auto_reopen_in_progress := auto_reopen_in_progress s;
     bg := bg s; last_good_frame := last_good_frame s; last_recovered_time := last_recovered_time s;
     fd_open := fd_open s; device_closes := device_closes s; device_opens := device_opens s;
     soft_restart_rounds := S (soft_restart_rounds s) |}.

(** The state on entering [while (true)] at time [t0]. *)
Definition initial_state (t0 : Z) : state :=
  {| einval_count := 0; signal_lost := false; pattern_on := false;
     need_gl_update := false; auto_reopen_in_progress := false; bg := BgIdle;
     last_good_frame := t0; last_recovered_time := None;
     fd_open := true; device_closes := 0; device_opens := 0; soft_restart_rounds := 0 |}.

(** [start_background_reopen]: [compare_exchange_strong(false, true)] and
    spawn the worker, or nothing when one is already running. *)
Definition start_background_reopen (s : state) : state :=
  if auto_reopen_in_progress s then s else set_bg true BgRestart s.

(** What [VIDIOC_DQBUF] does in one main-loop iteration.  [DqEINVAL]
    carries whether one of the [STREAM_RESTART_RETRIES] in-place restarts
    would succeed (used only at the threshold); [DqFrame] carries
    [planes[0].bytesused] and whether the requeue ([VIDIOC_QBUF]) succeeds. *)
Inductive dq_result :=
  | DqEAGAIN
  | DqEINVAL (restarted : bool)
  | DqOtherError
  | DqFrame (bytesused : Z) (qbuf_ok : bool).

(** The "Normal DQBUF handling" block. *)
Definition dequeue_step (s : state) (now : Z) (r : dq_result) : state :=
  match r with
  | DqEAGAIN => s
  | DqOtherError => s
  | DqEINVAL restarted =>
      let s := setPattern true (set_signal_lost true (set_einval (einval_count s + 1) s)) in
      if EINVAL_RESTART_THRESHOLD <=? einval_count s then
        let s := count_soft_restart_round s in
        if restarted then setPattern false (set_signal_lost false (mark_good now (set_einval 0 s)))
        else start_background_reopen s
      else start_background_reopen s
  | DqFrame bytesused qbuf_ok =>
      let s := if Z.eqb bytesused 0
               then start_background_reopen (setPattern true (set_signal_lost true s)) else s in
      if qbuf_ok then
        let s := set_einval 0 (mark_good now s) in
        if signal_lost s then setPattern false (set_signal_lost false s) else s
      else s
  end.

(** The GL-thread block run when [need_gl_update] is set (texture
    reallocation itself is not part of the recovery state). *)
Definition gl_update_step (s : state) : state :=
  if need_gl_update s
  then set_need_gl_update false (setPattern false (set_signal_lost false s))
  else s.

(** One [V4L2_EVENT_SOURCE_CHANGE]: the [get_v4l2_format] result, [None]
    when [VIDIOC_G_FMT] fails, else (width, height).  A readable non-zero
    format only reallocates textures, which is not recovery state. *)
Definition source_format_invalid (fmt : option (Z * Z)) : bool :=
  match fmt with
  | None => true
  | Some (w, h) => Z.eqb w 0 || Z.eqb h 0
  end.

Definition source_change_step (s : state) (fmt : option (Z * Z)) : state :=
  if source_format_invalid fmt
  then start_background_reopen (setPattern true (set_signal_lost true s))
  else s.

(** "Timeout -> set pattern if no good frames recently (respect recovery grace)". *)
Definition timeout_step (s : state) (now : Z) : state :=
  if negb (signal_lost s) && (PATTERN_TIMEOUT_MS <? now - last_good_frame s) then
    let within_recovery_grace :=
      match last_recovered_time s with
      | Some t => now - t <? RECOVERY_GRACE_MS
      | None => false
      end in
    if negb within_recovery_grace
    then start_background_reopen (setPattern true (set_signal_lost true s))
    else s
  else s.

(** One iteration of the main loop at time [now] (both clock readings of
    the iteration are taken equal), with the dequeue result and the
    source-change events read in it. *)
Definition main_iteration (s : state) (now : Z) (r : dq_result) (evs : list (option (Z * Z))) : state :=
  let s := gl_update_step s in
  let s := if auto_reopen_in_progress s then s else dequeue_step s now r in
  let s := fold_left source_change_step evs s in
  timeout_step s now.

(** The outcome of one [manual_restart_v4l_only()] call in the worker:
    [restart_v4l_stream] succeeds on the open handle; or the handle is
    closed and a full reopen succeeds; or the full reopen fails (after
    opening the device or not).  On the full-reopen path, once the device
    is open again, the function locks [restart_mutex] a second time while
    holding it (a non-recursive [std::mutex]), so in the program the worker
    blocks there for good.  The model lets that path run to its end
    instead: it only adds behaviours, and the facts proved for every run
    cover those as well. *)
Inductive restart_result := RestartStreamOk | ReopenOk | ReopenFailed (opened : bool).

Definition restarted_effects (now : Z) (s : state) : state :=
  set_need_gl_update true (set_signal_lost false (set_einval 0 (mark_good now s))).

Definition bg_restart_step (s : state) (now : Z) (r : restart_result) : state :=
  match bg s with
  | BgRestart =>
      match r with
      | RestartStreamOk =>
          if fd_open s then set_bg true BgVerify (restarted_effects now s) else s
      | ReopenOk => set_bg true BgVerify (restarted_effects now (cycle_device true s))
      | ReopenFailed opened =>
          (* a failure after open closes the new handle again *)
          let s := cycle_device opened s in
          if opened then cycle_device false s else s
      end
  | _ => s
  end.

(** The verify loop: [verified] when a buffer with [bytesused > 0] was
    dequeued and requeued within [BG_REOPEN_VERIFY_MAX_ATTEMPTS] polls. *)
Definition bg_verify_step (s : state) (now : Z) (verified : bool) : state :=
  match bg s with
  | BgVerify =>
      if verified
      then set_bg false BgIdle (set_need_gl_update true (set_einval 0 (mark_good now s)))
      else set_bg true BgRestart s
  | _ => s
  end.

Inductive event :=
  | MainIter (now : Z) (r : dq_result) (evs : list (option (Z * Z)))
  | BgRestartStep (now : Z) (r : restart_result)
  | BgVerifyStep (now : Z) (verified : bool)
  | KeyRestart.   (* key 'o': start_background_reopen() *)

Definition step (s : state) (e : event) : state :=
  match e with
  | MainIter now r evs => main_iteration s now r evs
  | BgRestartStep now r => bg_restart_step s now r
  | BgVerifyStep now v => bg_verify_step s now v
  | KeyRestart => start_background_reopen s
  end.

Definition run (s : state) (es : list event) : state := fold_left step es s.

End Supervisor.

(* ------------------------------------------------------------------ *)
(** ** The standalone test-pattern program (second half of
       [hdmi_simple_display.cpp])                                       *)
(* ------------------------------------------------------------------ *)
Module Standalone.

Definition PATTERN_TIMEOUT_MS : Z := 3000.
Definition STREAM_RESET_RETRIES : Z := 3.
Definition MAX_IMAGE_WIDTH : Z := 8192.
Definition MAX_IMAGE_HEIGHT : Z := 8192.

(** The part of [struct AppState] the stream and pattern logic touches;
    [lastFrameTime] is a [steady_clock] reading in milliseconds. *)
Record app_state := {
  streaming : bool;
  stream_reset_count : Z;
  haveTestPattern : bool;
  showPattern : bool;
  lastFrameTime : Z }.

Definition with_stream (st : bool) (cnt : Z) (t : Z) (s : app_state) : app_state :=
  {| streaming := st; stream_reset_count := cnt; haveTestPattern := haveTestPattern s;
     showPattern := showPattern s; lastFrameTime := t |}.

Definition with_pattern (have show : bool) (s : app_state) : app_state :=
  {| streaming := streaming s; stream_reset_count := stream_reset_count s;
     haveTestPattern := have; showPattern := show; lastFrameTime := lastFrameTime s |}.

(** [stopStreaming]: STREAMOFF only when streaming. *)
Definition stopStreaming (s : app_state) : app_state :=
  if streaming s then with_stream false (stream_reset_count s) (lastFrameTime s) s else s.

(** [startStreaming]: [ok] is whether every QBUF and the STREAMON succeed;
    on success the state is streaming and [lastFrameTime = now]. *)
Definition startStreaming (s : app_state) (ok : bool) (now : Z) : bool * app_state :=
  if ok then (true, with_stream true (stream_reset_count s) now s) else (false, s).

(** [restartStream] *)
Definition restartStream (s : app_state) (start_ok : bool) (now : Z) : bool * app_state :=
  if (STREAM_RESET_RETRIES <=? stream_reset_count s)%Z then (false, s)
  else
    let s := with_stream (streaming s) (stream_reset_count s + 1) (lastFrameTime s) s in
    startStreaming (stopStreaming s) start_ok now.

(** The outcome of [ioctl(VIDIOC_DQBUF)]: EAGAIN, EINVAL (with the result
    of the restart's [startStreaming] and the clock), another errno, or a
    dequeued buffer index at time [now]. *)
Inductive dq_outcome :=
  | DQ_EAGAIN
  | DQ_EINVAL (start_ok : bool) (now : Z)
  | DQ_ERROR
  | DQ_OK (index : Z) (now : Z).

(** [dequeueBuffer]: the buffer index, [-1] (try again) or [-2] (fatal). *)
Definition dequeueBuffer (s : app_state) (o : dq_outcome) : Z * app_state :=
  match o with
  | DQ_EAGAIN => (-1, s)
  | DQ_EINVAL start_ok now =>
      let '(ok, s') := restartStream s start_ok now in
      if ok then (-1, s') else (-2, s')
  | DQ_ERROR => (-2, s)
  | DQ_OK idx now => (idx, with_stream (streaming s) 0 now s)
  end.

Definition dequeue_all (s : app_state) (os : list dq_outcome) : app_state :=
  fold_left (fun s o => snd (dequeueBuffer s o)) os s.

(** [updatePatternState] at time [now]. *)
Definition updatePatternState (s : app_state) (now : Z) : app_state :=
  if (PATTERN_TIMEOUT_MS <? now - lastFrameTime s)%Z && haveTestPattern s
  then with_pattern (haveTestPattern s) true s
  else with_pattern (haveTestPattern s) false s.

(** [parseArgs]: [argv[1..]]; [ArgsExitHelp] is the [exit(0)] after the
    usage text. *)
Inductive args_result :=
  | ArgsOk (device testPattern : string) (verbose : bool)
  | ArgsFail
  | ArgsExitHelp.

Fixpoint parse_loop (args : list string) (device testPattern : string) (verbose : bool)
  : args_result :=
  match args with
  | [] => ArgsOk device testPattern verbose
  | arg :: rest =>
      if String.eqb arg "-d" || String.eqb arg "--device" then
        match rest with
        | [] => ArgsFail
        | v :: rest' => parse_loop rest' v testPattern verbose
        end
      else if String.eqb arg "-t" || String.eqb arg "--test-pattern" then
        match rest with
        | [] => ArgsFail
        | v :: rest' => parse_loop rest' device v verbose
        end
      else if String.eqb arg "-v" || String.eqb arg "--verbose" then
        parse_loop rest device testPattern true
      else if String.eqb arg "-h" || String.eqb arg "--help" then ArgsExitHelp
      else ArgsFail
  end.

Definition parseArgs (args : list string) : args_result :=
  parse_loop args "/dev/video0" "" false.

(** The loop [for (path : searchPaths) if (fileExists(path)) return path;
    return "";]. *)
Fixpoint first_existing (fileExists : string -> bool) (paths : list string) : string :=
  match paths with
  | [] => ""
  | p :: rest => if fileExists p then p else first_existing fileExists rest
  end.

(** [getExecutableDir]: [readlink("/proc/self/exe")] ([None] when it
    fails), cut before its last '/'; "." otherwise. *)
Fixpoint last_slash_prefix (l : list ascii) : option (list ascii) :=
  match l with
  | [] => None
  | c :: r =>
      match last_slash_prefix r with
      | Some p => Some (c :: p)
      | None => if Ascii.eqb c "/"%char then Some [] else None
      end
  end.

Definition getExecutableDir (readlink : option string) : string :=
  match readlink with
  | Some path =>
      if String.eqb path "" then "."
      else match last_slash_prefix (list_ascii_of_string path) with
           | Some p => string_of_list_ascii p
           | None => "."
           end
  | None => "."
  end.

Definition test_pattern_search_paths (exeDir : string) : list string :=
  ["testimage.jpg"; "test_image.jpg"; "testpattern.png";
   "resources/testimage.jpg"; "assets/testimage.png";
   exeDir ++ "/testimage.jpg"; exeDir ++ "/test_image.jpg"; exeDir ++ "/testpattern.png";
   exeDir ++ "/shaders/testimage.jpg"; exeDir ++ "/shaders/testpattern.png";
   exeDir ++ "/assets/testimage.jpg"; exeDir ++ "/assets/testimage.png"]%string.

(** [findTestPatternImage(cliPath)] *)
Definition findTestPatternImage (fileExists : string -> bool) (readlink : option string)
  (cliPath : string) : string :=
  if negb (String.eqb cliPath "") then cliPath
  else first_existing fileExists (test_pattern_search_paths (getExecutableDir readlink)).

(** [loadTestPatternImage]: [info] is [stbi_info] (width, height) or
    [None]; [decodes] is whether [stbi_load] returns data. *)
Definition loadTestPatternImage (info : string -> option (Z * Z)) (decodes : string -> bool)
  (imagePath : string) (s : app_state) : bool * app_state :=
  if String.eqb imagePath "" then (false, s)
  else match info imagePath with
       | None => (false, s)
       | Some (w, h) =>
           if (MAX_IMAGE_WIDTH <? w)%Z || (MAX_IMAGE_HEIGHT <? h)%Z then (false, s)
           else if (w <=? 0)%Z || (h <=? 0)%Z then (false, s)
           else if decodes imagePath then (true, with_pattern true (showPattern s) s)
           else (false, s)
       end.

(** [generateProceduralPattern] sets [haveTestPattern]. *)
Definition generateProceduralPattern (s : app_state) : app_state :=
  with_pattern true (showPattern s) s.

(** The test-pattern set-up of [main]: which texture ends up as the
    pattern, and the state.  [have_egl] is whether the build defines
    [HAVE_EGL]; without it both branches only log, and nothing is loaded
    or generated. *)
Inductive pattern_source := PatternImage (path : string) | PatternProcedural | PatternNone.

Definition setup_test_pattern (have_egl : bool) (fileExists : string -> bool)
  (readlink : option string) (info : string -> option (Z * Z)) (decodes : string -> bool)
  (testPatternPath : string) (s : app_state) : pattern_source * app_state :=
  let foundPattern := findTestPatternImage fileExists readlink testPatternPath in
  if negb (String.eqb foundPattern "") then
    if have_egl then
      let '(ok, s') := loadTestPatternImage info decodes foundPattern s in
      if ok then (PatternImage foundPattern, s')
      else (PatternProcedural, generateProceduralPattern s')
    else (PatternNone, s)
  else if have_egl then (PatternProcedural, generateProceduralPattern s)
  else (PatternNone, s).

(** The colour bars of [generateProceduralPattern]: the RGBA bytes
    written for column [x] of the 640 x 480 pattern; a bar outside 0..7
    would keep the zero-initialised RGB. *)
Definition proc_width : Z := 640.
Definition proc_height : Z := 480.

Definition procedural_pixel (x : Z) : list Z :=
  let bar := Z.quot (x * 8) proc_width in
  let rgb :=
    match bar with
    | 0 => [255; 255; 255]
    | 1 => [255; 255; 0]
    | 2 => [0; 255; 255]
    | 3 => [0; 255; 0]
    | 4 => [255; 0; 255]
    | 5 => [255; 0; 0]
    | 6 => [0; 0; 255]
    | 7 => [0; 0; 0]
    | _ => [0; 0; 0]
    end%Z in
  rgb ++ [255%Z].

(** The whole [std::vector<unsigned char> pattern(width * height * 4)],
    row by row. *)
Definition procedural_pattern : list Z :=
  concat (map (fun y : nat => concat (map (fun x : nat => procedural_pixel (Z.of_nat x))
                                          (seq 0 (Z.to_nat proc_width))))
              (seq 0 (Z.to_nat proc_height))).

End Standalone.

(* ------------------------------------------------------------------ *)
(** ** [std::to_string], [buildModuleFilenames] and [fourcc_to_str]     *)
(* ------------------------------------------------------------------ *)
Module CppStrings.
Import Offsets.

(** The character ['0' + d] of a decimal digit [d]. *)
Definition digit_char (d : Z) : ascii := ascii_of_nat (Z.to_nat (48 + d)).

(** The decimal digits of [n >= 0], most significant first, in front of
    [acc]; [fuel] bounds the number of digits. *)
Fixpoint dec_digits (fuel : nat) (n : Z) (acc : list ascii) : list ascii :=
  match fuel with
  | O => acc
  | S f =>
      let acc := digit_char (n mod 10) :: acc in
      if n <? 10 then acc else dec_digits f (n / 10) acc
  end.

(** [std::to_string(int)], which prints like [printf("%d")]: an optional
    ['-'] and the decimal digits of the magnitude (at most 10 for an [int]). *)
Definition to_string_int (z : Z) : string :=
  string_of_list_ascii
    (if z <? 0 then "-"%char :: dec_digits 10 (- z) [] else dec_digits 10 z []).

(** [buildModuleFilenames(ctrl)], as a function of [ctrl.moduleSerials]:
    slot [i] is ["modul<i+1>.txt"] for a zero serial and ["m<serial>.txt"]
    otherwise. *)
Definition buildModuleFilenames (moduleSerials : list Z) : list string :=
  map (fun i : nat =>
         let serial := nth i moduleSerials 0 in
         if Z.eqb serial 0
         then ("modul" ++ to_string_int (Z.of_nat i + 1) ++ ".txt")%string
         else ("m" ++ to_string_int serial ++ ".txt")%string)
      (seq 0 3).

(** [std::string(s)] for a NUL-terminated [char] buffer: the characters
    before the first NUL. *)
Fixpoint c_str (l : list ascii) : list ascii :=
  match l with
  | [] => []
  | c :: r => if Ascii.eqb c "000"%char then [] else c :: c_str r
  end.

(** [(char)b] for a byte value [0 <= b < 256]. *)
Definition byte_char (b : Z) : ascii := ascii_of_nat (Z.to_nat b).

(** [std::string fourcc_to_str(uint32_t f)]. *)
Definition fourcc_to_str (f : Z) : string :=
  string_of_list_ascii
    (c_str [byte_char (Z.land f 255);
            byte_char (Z.land (Z.shiftr f 8) 255);
            byte_char (Z.land (Z.shiftr f 16) 255);
            byte_char (Z.land (Z.shiftr f 24) 255);
            "000"%char]).

End CppStrings.

(* ------------------------------------------------------------------ *)
(** ** Display program: [getExecutableDir], [joinPath], [findShaderFile] *)
(* ------------------------------------------------------------------ *)
Module Display.
Import Standalone.

(** [s.back()] of a string ([None] when it is empty). *)
Fixpoint back (l : list ascii) : option ascii :=
  match l with
  | [] => None
  | [c] => Some c
  | _ :: r => back r
  end.

Definition is_sep (c : ascii) : bool := Ascii.eqb c "/"%char || Ascii.eqb c "\"%char.

(** [getExecutableDir()] of the display program: [SDL_GetBasePath()]
    ([None] for NULL) with a '/' appended unless it is empty or already
    ends in '/' or '\'; otherwise the [readlink("/proc/self/exe")] target
    ([None] on failure) up to and including its last '/'; otherwise "./". *)
Definition getExecutableDir (sdl_base : option string) (readlink : option string) : string :=
  match sdl_base with
  | Some dir =>
      match back (list_ascii_of_string dir) with
      | Some c => if is_sep c then dir else (dir ++ "/")%string
      | None => dir
      end
  | None =>
      match readlink with
      | Some path =>
          if String.eqb path "" then "./"
          else match last_slash_prefix (list_ascii_of_string path) with
               | Some p => string_of_list_ascii (p ++ ["/"%char])
               | None => "./"
               end
      | None => "./"
      end
  end.

(** [joinPath(dir, name)] *)
Definition joinPath (dir name : string) : string :=
  match back (list_ascii_of_string dir) with
  | None => name
  | Some c => if is_sep c then (dir ++ name)%string else (dir ++ "/" ++ name)%string
  end.

(** The candidate list of [findShaderFile(name)], in order. *)
Definition shader_candidates (exeDir name : string) : list string :=
  [name] ++
  (if String.eqb exeDir "" then []
   else [(exeDir ++ name)%string; (exeDir ++ "shaders/" ++ name)%string;
         (exeDir ++ "../" ++ name)%string; (exeDir ++ "../shaders/" ++ name)%string;
         (exeDir ++ "../../shaders/" ++ name)%string; (exeDir ++ "assets/" ++ name)%string]) ++
  [("shaders/" ++ name)%string;
   ("/usr/local/share/hdmi-in-display/shaders/" ++ name)%string;
   ("/usr/share/hdmi-in-display/shaders/" ++ name)%string].

(** The loop [for (p : candidates) { outAttempts->push_back(p); if
    (fileExists(p)) return p; }]: the path returned ("" after the loop)
    and the attempts recorded. *)
Fixpoint try_candidates (fileExists : string -> bool) (cs : list string) : string * list string :=
  match cs with
  | [] => (""%string, [])
  | p :: rest =>
      if fileExists p then (p, [p])
      else let '(r, a) := try_candidates fileExists rest in (r, p :: a)
  end.

(** [findShaderFile(name, outAttempts)]: the path found ("" for none) and
    the content of [*outAttempts] afterwards, starting from [attempts]. *)
Definition findShaderFile (fileExists : string -> bool) (sdl_base readlink : option string)
  (name : string) (attempts : list string) : string * list string :=
  if String.eqb name "" then (""%string, attempts)
  else try_candidates fileExists (shader_candidates (getExecutableDir sdl_base readlink) name).

End Display.

(* ================================================================== *)
(** * Proofs                                                            *)
(* ================================================================== *)

Module OffsetFacts.
Import Offsets.

Lemma fill_lines_full (lines : list string) (out : list Z) (k : nat) :
  ~ (k < length out)%nat -> fill_lines lines out k = (out, k).
Proof. intros Hk. destruct lines; simpl; [done|]. by case_decide. Qed.

Lemma fill_lines_skip (pre post : list string) (l : string) (out : list Z) (k : nat) :
  parseXYLine l = None ->
  fill_lines (pre ++ l :: post) out k = fill_lines (pre ++ post) out k.
Proof.
  intros Hl. revert out k. induction pre as [|l' pre IH]; intros out k; simpl.
  - case_decide; [by rewrite Hl|]. symmetry. by apply fill_lines_full.
  - case_decide; [|done]. destruct (parseXYLine l') as [[x y]|]; apply IH.
Qed.

Lemma fill_modules_skip (files1 files2 : list (option (list string)))
  (pre post : list string) (l : string) (out : list Z) (k : nat) :
  parseXYLine l = None ->
  fill_modules (files1 ++ Some (pre ++ l :: post) :: files2) out k =
  fill_modules (files1 ++ Some (pre ++ post) :: files2) out k.
Proof.
  intros Hl. revert out k. induction files1 as [|[lines|] files1 IH]; intros out k; simpl.
  - by rewrite fill_lines_skip.
  - destruct (fill_lines lines out k). apply IH.
  - apply IH.
Qed.

Lemma blank_or_comment_rejected (l : string) :
  is_blank l = true \/ is_comment l = true -> parseXYLine l = None.
Proof.
  unfold is_blank, is_comment, parseXYLine.
  destruct (trim (list_ascii_of_string l)) as [|c r]; [done|].
  intros [H|H]; [discriminate|]. by rewrite H.
Qed.

Lemma take_take_app {A} (n : nat) (l x : list A) :
  take n (take n l ++ x) = take n (l ++ x).
Proof.
  destruct (decide (n <= length l)%nat).
  - rewrite take_app_le; [|rewrite length_take; lia].
    rewrite take_app_le by done. rewrite take_take. f_equal. lia.
  - rewrite (take_ge l n) by lia. done.
Qed.

Lemma length_valid_entries_even (lines : list string) :
  Nat.Even (length (valid_entries lines)).
Proof.
  induction lines as [|l ls IH]; simpl; [exists O; done|].
  unfold valid_entries in *; simpl. rewrite length_app.
  destruct (parseXYLine l) as [[x y]|]; simpl; destruct IH as [m Hm]; [exists (S m)|exists m]; lia.
Qed.

Lemma length_take_even {A} (N : nat) (l : list A) :
  Nat.Even N -> Nat.Even (length l) -> Nat.Even (length (take N l)).
Proof. intros HN Hl. rewrite length_take. destruct (decide (N <= length l)%nat); [rewrite Nat.min_l by lia|rewrite Nat.min_r by lia]; done. Qed.

(** The filling loop of one file, on a table of [N] slots whose first
    [length P] slots are already written and the rest still 0. *)
Lemma fill_lines_spec (N : nat) (lines : list string) (P : list Z) :
  Nat.Even N -> Nat.Even (length P) -> (length P <= N)%nat ->
  fill_lines lines (P ++ replicate (N - length P) 0%Z) (length P) =
  (take N (P ++ valid_entries lines) ++
     replicate (N - length (take N (P ++ valid_entries lines))) 0%Z,
   length (take N (P ++ valid_entries lines))).
Proof.
  intros HN. revert P. induction lines as [|l ls IH]; intros P HP Hle.
  - simpl. unfold valid_entries; simpl. rewrite app_nil_r, take_ge by lia. done.
  - simpl. rewrite length_app, length_replicate.
    case_decide as Hlt.
    + assert (length P + 2 <= N)%nat as Hle2.
      { destruct HN as [a Ha], HP as [b Hb]. lia. }
      unfold valid_entries; simpl. fold (valid_entries ls).
      destruct (parseXYLine l) as [[x y]|]; simpl.
      * replace (N - length P)%nat with (S (S (N - (length P + 2))))%nat by lia.
        simpl.
        rewrite (insert_app_r_alt P _ (length P)) by lia.
        rewrite (insert_app_r_alt P _ (S (length P))) by lia.
        rewrite Nat.sub_diag. replace (S (length P) - length P)%nat with 1%nat by lia.
        simpl.
        pose proof (IH (P ++ [x; y])) as IH'.
        rewrite !length_app in IH'. simpl in IH'.
        replace (length P + 2)%nat with (S (S (length P))) in IH' by lia.
        rewrite <- !app_assoc in IH'. simpl in IH'.
        replace (N - S (S (length P)))%nat with (N - (length P + 2))%nat in IH' by lia.
        apply IH'.
        -- destruct HP as [b Hb]. exists (S b). lia.
        -- lia.
      * apply IH; done.
    + assert (length P = N) as Heq by lia.
      rewrite take_app_le by lia. rewrite take_ge by lia.
      rewrite Heq, Nat.sub_diag. simpl. rewrite app_nil_r. done.
Qed.

Lemma fill_modules_spec (N : nat) (files : list (option (list string))) (P : list Z) :
  Nat.Even N -> Nat.Even (length P) -> (length P <= N)%nat ->
  fill_modules files (P ++ replicate (N - length P) 0%Z) (length P) =
  (take N (P ++ all_entries files) ++
     replicate (N - length (take N (P ++ all_entries files))) 0%Z,
   length (take N (P ++ all_entries files))).
Proof.
  intros HN. revert P. induction files as [|[lines|] fs IH]; intros P HP Hle.
  - simpl. unfold all_entries; simpl. rewrite app_nil_r, take_ge by lia. done.
  - simpl. rewrite fill_lines_spec by done.
    rewrite IH.
    + unfold all_entries; simpl. fold (all_entries fs).
      rewrite take_take_app, app_assoc. done.
    + apply length_take_even; [done|]. rewrite length_app.
      destruct HP as [a Ha], (length_valid_entries_even lines) as [b Hb]. exists (a + b)%nat. lia.
    + rewrite length_take. lia.
  - simpl. unfold all_entries; simpl. fold (all_entries fs). apply IH; done.
Qed.

(** The table always has exactly 150 (dx, dy)
    entries (300 [GLint]s); the valid entries of the found files fill it
    consecutively from slot 0 in file order, with no fixed 50-entry block
    per file; the slots left over are (0,0) and entries beyond the 150th
    are dropped. *)
Theorem offsets_table_concatenated (files : list (option (list string))) :
  length (loadOffsetsFromModuleFiles files) = (150 * 2)%nat /\
  loadOffsetsFromModuleFiles files =
    take (150 * 2) (all_entries files) ++
    replicate (150 * 2 - length (take (150 * 2) (all_entries files))) 0%Z.
Proof.
  unfold loadOffsetsFromModuleFiles.
  pose proof (fill_modules_spec (150 * 2) files []) as H.
  cbn [length app] in H. rewrite Nat.sub_0_r in H. rewrite H.
  - simpl. split; [|done]. rewrite length_app, length_replicate, length_take. lia.
  - exists 150%nat. lia.
  - exists O. done.
  - lia.
Qed.

(** Claim C3: the loader does not give each module file its 50-entry
    block.  With module 1 holding the single line "1 1" and module 2 the
    single line "2 2", the entry of module 2 lands in slot 1, the slot of
    the second tile of module 1, not in slot 50 where the tiles of module 2
    start. *)
Lemma offsets_no_fixed_blocks_cex :
  entry (loadOffsetsFromModuleFiles [Some ["1 1"%string]; Some ["2 2"%string]; None]) 1 = (2, 2)%Z /\
  entry (loadOffsetsFromModuleFiles [Some ["1 1"%string]; Some ["2 2"%string]; None]) 50 <> (2, 2)%Z.
Proof. vm_compute. split; [reflexivity|discriminate]. Qed.

(** Claim C8: a malformed line (blank, a comment starting with '#', or
    not two integers) contributes no entry and does not move the later
    valid entries: the table equals the one loaded with the line removed. *)
Theorem malformed_line_skipped (files1 files2 : list (option (list string)))
  (pre post : list string) (l : string) :
  is_blank l = true \/ is_comment l = true \/ parseXYLine l = None ->
  loadOffsetsFromModuleFiles (files1 ++ Some (pre ++ l :: post) :: files2) =
  loadOffsetsFromModuleFiles (files1 ++ Some (pre ++ post) :: files2).
Proof.
  intros Hl. assert (parseXYLine l = None) as Hp.
  { destruct Hl as [H|[H|H]]; [apply blank_or_comment_rejected; tauto..|done]. }
  unfold loadOffsetsFromModuleFiles. by rewrite fill_modules_skip.
Qed.

Lemma malformed_line_skipped_witness :
  (is_blank "# module 1"%string = true \/ is_comment "# module 1"%string = true \/
   parseXYLine "# module 1"%string = None) /\
  loadOffsetsFromModuleFiles ([] ++ Some (["-3 5"%string] ++ "# module 1"%string :: ["0 0"%string; "2 -1"%string]) :: [None; None]) =
  loadOffsetsFromModuleFiles ([] ++ Some (["-3 5"%string] ++ ["0 0"%string; "2 -1"%string]) :: [None; None]).
Proof.
  assert (H : is_comment "# module 1"%string = true) by reflexivity.
  split; [right; left; exact H|].
  apply (malformed_line_skipped [] [None; None] ["-3 5"%string] ["0 0"%string; "2 -1"%string] "# module 1"%string).
  right; left; exact H.
Defined.

End OffsetFacts.

Module Float32Facts.
Import Shader.

Lemma round_half_even_err (N D : Z) : 0 < D ->
  0 <= 2 * Z.abs (round_half_even N D * D - N) <= D.
Proof.
  intros HD. unfold round_half_even.
  pose proof (Z.div_mod N D ltac:(lia)) as HN.
  pose proof (Z.mod_pos_bound N D HD) as Hr.
  set (q := N / D) in *. set (r := N mod D) in *.
  destruct (2 * r <? D) eqn:E1; [apply Z.ltb_lt in E1; lia|apply Z.ltb_ge in E1].
  destruct (D <? 2 * r) eqn:E2; [apply Z.ltb_lt in E2; lia|apply Z.ltb_ge in E2].
  destruct (Z.even q); lia.
Qed.

Lemma float32_exponent_le (a d : Z) : 0 < a -> 0 < d -> a <= 2 * d ->
  -149 <= float32_exponent a d <= -22.
Proof.
  intros Ha Hd Had. unfold float32_exponent.
  assert (Z.log2 a <= Z.log2 d + 1).
  { pose proof (Z.log2_double d Hd). pose proof (Z.log2_le_mono a (2 * d) Had). lia. }
  destruct (scaled a d (Z.log2 a - Z.log2 d - 23)) as [N D].
  destruct (2 ^ 23 <=? N / D); lia.
Qed.

Local Open Scope Q_scope.

(** On [-2, 2] single-precision rounding is off by at most [2^-23]. *)
Lemma round32_err (x : Q) : -2 <= x <= 2 ->
  - (1 # 8388608) <= round32 x - x <= (1 # 8388608).
Proof.
  destruct x as [n d]. intros [Hlo Hhi].
  unfold round32. cbn [Qnum Qden].
  destruct (Z.eqb n 0) eqn:En.
  - apply Z.eqb_eq in En. subst n.
    unfold Qle, Qminus, Qplus, Qopp; cbn; lia.
  - apply Z.eqb_neq in En.
    assert (Habs : (Z.abs n <= 2 * Z.pos d)%Z).
    { unfold Qle in Hlo, Hhi; cbn in Hlo, Hhi. lia. }
    pose proof (float32_exponent_le (Z.abs n) (Z.pos d) ltac:(lia) ltac:(lia) Habs) as He.
    set (e := float32_exponent (Z.abs n) (Z.pos d)) in *.
    unfold scaled. replace (0 <=? e)%Z with false by (symmetry; apply Z.leb_gt; lia).
    set (k := (- e)%Z).
    assert (HP : (2 ^ 22 <= 2 ^ k)%Z) by (apply Z.pow_le_mono_r; lia).
    assert (HP0 : (0 < 2 ^ k)%Z) by (apply Z.pow_pos_nonneg; lia).
    set (P := (2 ^ k)%Z) in *.
    pose proof (round_half_even_err (Z.abs n * P) (Z.pos d) ltac:(lia)) as Hm.
    set (m0 := round_half_even (Z.abs n * P) (Z.pos d)) in *.
    assert (HX : (2 * Z.abs (Z.sgn n * m0 * Z.pos d - n * P) <= Z.pos d)%Z).
    { destruct (Z.sgn_spec n) as [[Hn ->]|[[Hn ->]|[Hn ->]]]; [|lia|].
      - rewrite (Z.abs_eq n) in Hm by lia. rewrite Z.mul_1_l. lia.
      - rewrite (Z.abs_neq n) in Hm by lia.
        lia. }
    set (X := (Z.sgn n * m0 * Z.pos d - n * P)%Z) in *.
    unfold Qle, Qminus, Qplus, Qopp; cbn [Qnum Qden].
    rewrite !Pos2Z.inj_mul, !Z2Pos.id by lia.
    split; nia.

Qed.

End Float32Facts.

Module ShaderFacts.
Import Shader.
Local Open Scope Q_scope.

Lemma Qltb_iff (a b : Q) : Qltb a b = true <-> a < b.
Proof.
  unfold Qltb. rewrite negb_true_iff. split.
  - intros H. apply Qnot_le_lt. intros Hle. apply Qle_bool_iff in Hle. congruence.
  - intros H. destruct (Qle_bool b a) eqn:E; [|done].
    apply Qle_bool_iff in E. exfalso. apply (Qlt_not_le a b); done.
Qed.

(** [rotate90_centered] in closed form, one case per quarter turn. *)
Lemma rotate90_centered_cases (uv : vec2) (k : Z) :
  rotate90_centered uv k =
  let px := round32 (vx uv - (1#2)) in
  let py := round32 (vy uv - (1#2)) in
  if (Z.land k 3 =? 0)%Z then V2 (round32 (px + (1#2))) (round32 (py + (1#2)))
  else if (Z.land k 3 =? 1)%Z then V2 (round32 (py + (1#2))) (round32 (- px + (1#2)))
  else if (Z.land k 3 =? 2)%Z then V2 (round32 (- px + (1#2))) (round32 (- py + (1#2)))
  else V2 (round32 (- py + (1#2))) (round32 (px + (1#2))).
Proof.
  unfold rotate90_centered; cbv zeta.
  destruct (Z.land k 3 =? 0)%Z; [reflexivity|].
  destruct (Z.land k 3 =? 1)%Z; [reflexivity|].
  destruct (Z.land k 3 =? 2)%Z; reflexivity.
Qed.

(** Replace each innermost [round32 y] of the goal by a fresh value
    within [2^-23] of [y], once [|y| <= 2] follows from the context. *)
Ltac bound_round32 :=
  repeat match goal with
  | |- context [round32 ?y] =>
      lazymatch y with
      | context [round32 _] => fail
      | _ =>
          let r := fresh "r" in let E := fresh "E" in
          assert (E : - (1 # 8388608) <= round32 y - y <= (1 # 8388608))
            by (apply Float32Facts.round32_err; lra);
          set (r := round32 y) in *; clearbody r
      end
  end.

(** Claim C9 fails as stated: in single precision four quarter turns do
    not give back the coordinate.  The sample coordinate of input pixel
    (100.5, 205.5) of a 3840 x 2160 frame comes back moved in both
    components, already for the step 0, where no turn is made at all. *)
Lemma rotate90_centered_four_times_cex :
  let uv := V2 (round32 ((201 # 2) / 3840)) (round32 ((411 # 2) / 2160)) in
  let r4 := rotate90_centered (rotate90_centered (rotate90_centered (rotate90_centered uv 0) 0) 0) 0 in
  vx r4 == (439091 # 16777216) /\ vy r4 == (798083 # 8388608) /\
  ~ (vx r4 == vx uv) /\ ~ (vy r4 == vy uv).
Proof. vm_compute. split; [reflexivity|split; [reflexivity|split; discriminate]]. Qed.

(** Claim C9 (as amended): for every step [k] and every coordinate in the
    unit square, four quarter turns about the centre with the same step
    give back the coordinate up to single-precision rounding: each
    component is within [2^-20] of the original one. *)
Theorem rotate90_centered_four_times_approx (k : Z) (uv : vec2) :
  0 <= vx uv <= 1 -> 0 <= vy uv <= 1 ->
  let r4 := rotate90_centered (rotate90_centered (rotate90_centered (rotate90_centered uv k) k) k) k in
  - (1 # 1048576) <= vx r4 - vx uv <= (1 # 1048576) /\
  - (1 # 1048576) <= vy r4 - vy uv <= (1 # 1048576).
Proof.
  intros Hx Hy. cbv zeta. rewrite !(rotate90_centered_cases _ k). cbv zeta.
  destruct uv as [x y]; cbn [vx vy] in *.
  destruct (Z.land k 3 =? 0)%Z; [|destruct (Z.land k 3 =? 1)%Z; [|destruct (Z.land k 3 =? 2)%Z]];
    cbn [vx vy]; bound_round32; split; lra.
Qed.

Lemma rotate90_centered_four_times_approx_witness :
  (0 <= (201 # 7680) <= 1) /\ (0 <= (411 # 4320) <= 1) /\
  let r4 := rotate90_centered (rotate90_centered (rotate90_centered
              (rotate90_centered (V2 (201 # 7680) (411 # 4320)) 1) 1) 1) 1 in
  - (1 # 1048576) <= vx r4 - (201 # 7680) <= (1 # 1048576) /\
  - (1 # 1048576) <= vy r4 - (411 # 4320) <= (1 # 1048576).
Proof.
  assert (Hx : 0 <= 201 # 7680 <= 1) by (split; vm_compute; discriminate).
  assert (Hy : 0 <= 411 # 4320 <= 1) by (split; vm_compute; discriminate).
  split; [exact Hx|]. split; [exact Hy|].
  exact (rotate90_centered_four_times_approx 1 (V2 (201 # 7680) (411 # 4320)) Hx Hy).
Defined.

(** Claim C5: at an in-grid pixel the tile is displayed on its nominal
    rectangle moved by the tile's (dx, dy) offset, and a pixel outside that
    moved rectangle gets the background colour, never a sample. *)
Theorem tile_shifted_rect_or_background (u : uniforms) (outPx : vec2) :
  (0 <= tile_col u outPx < u_numTilesPerRow u)%Z ->
  (0 <= tile_row u outPx < u_numTilesPerCol u)%Z ->
  let col := tile_col u outPx in
  let row := tile_row u outPx in
  let s := nominal_start u col row in
  let off := tile_offset u col row in
  let rs := tile_rect_start u col row in
  vx rs == vx s + inject_Z (ix off) /\ vy rs == vy s + inject_Z (iy off) /\
  (shader_main u outPx = Background <->
     ~ ((vx rs <= vx outPx /\ vx outPx < vx rs + u_tileW u) /\
        (vy rs <= vy outPx /\ vy outPx < vy rs + u_tileH u))).
Proof.
  intros Hc Hr. cbv zeta. split; [reflexivity|]. split; [reflexivity|].
  unfold shader_main. cbv zeta. cbn [vx vy].
  replace ((tile_col u outPx <? 0) || (u_numTilesPerRow u <=? tile_col u outPx) ||
           (tile_row u outPx <? 0) || (u_numTilesPerCol u <=? tile_row u outPx))%Z
    with false.
  2:{ symmetry. repeat rewrite orb_false_iff. rewrite !Z.ltb_ge, !Z.leb_gt. lia. }
  destruct (Qle_bool (vx (tile_rect_start u (tile_col u outPx) (tile_row u outPx))) (vx outPx) &&
            Qltb (vx outPx) (vx (tile_rect_start u (tile_col u outPx) (tile_row u outPx)) + u_tileW u) &&
            Qle_bool (vy (tile_rect_start u (tile_col u outPx) (tile_row u outPx))) (vy outPx) &&
            Qltb (vy outPx) (vy (tile_rect_start u (tile_col u outPx) (tile_row u outPx)) + u_tileH u))
    eqn:E; cbn [negb].
  - rewrite !andb_true_iff, !Qle_bool_iff, !Qltb_iff in E. split; [intros H; discriminate H|tauto].
  - split; [|done]. intros _ [[H1 H2] [H3 H4]].
    apply Qle_bool_iff in H1, H3. apply Qltb_iff in H2, H4.
    rewrite H1, H2, H3, H4 in E. discriminate.
Qed.

Lemma isGapZero_loop_iff (gc : Z) (gr : list Z) (g : Z) (fuel i : nat) :
  (gc <= Z.of_nat (i + fuel))%Z ->
  isGapZero_loop gc gr g i fuel = true <->
  exists j, (i <= j)%nat /\ (Z.of_nat j < gc)%Z /\ nth j gr 0%Z = g.
Proof.
  revert i. induction fuel as [|f IH]; intros i Hgc; simpl.
  - split; [discriminate|]. intros (j & Hj & Hlt & _). lia.
  - destruct (gc <=? Z.of_nat i)%Z eqn:E1.
    + apply Z.leb_le in E1. split; [discriminate|]. intros (j & Hj & Hlt & _). lia.
    + apply Z.leb_gt in E1. destruct (nth i gr 0%Z =? g)%Z eqn:E2.
      * apply Z.eqb_eq in E2. split; [|done]. intros _. exists i. lia.
      * apply Z.eqb_neq in E2. rewrite IH by lia. split.
        -- intros (j & Hj & Hlt & Hn). exists j. lia.
        -- intros (j & Hj & Hlt & Hn). exists j.
           destruct (decide (i = j)); [subst; done|]. lia.
Qed.

Lemma isGapZero_In (u : uniforms) (g : Z) :
  (0 <= gap_count u <= 8)%Z -> (Z.to_nat (gap_count u) <= length (gap_rows u))%nat ->
  isGapZero u g = true <-> In g (gap_set u).
Proof.
  intros Hgc Hlen. unfold isGapZero, gap_set.
  rewrite isGapZero_loop_iff by lia. split.
  - intros (j & _ & Hj & Hn). subst g.
    assert (nth j (firstn (Z.to_nat (gap_count u)) (gap_rows u)) 0%Z = nth j (gap_rows u) 0%Z) as E.
    { rewrite nth_firstn.
      replace (j <? Z.to_nat (gap_count u))%nat with true by (symmetry; apply Nat.ltb_lt; lia).
      done. }
    rewrite <- E. apply nth_In. rewrite length_firstn. lia.
  - intros Hin. destruct (In_nth _ _ 0%Z Hin) as (j & Hj & Hn).
    rewrite length_firstn in Hj. exists j.
    rewrite nth_firstn in Hn.
    replace (j <? Z.to_nat (gap_count u))%nat with true in Hn by (symmetry; apply Nat.ltb_lt; lia).
    split; [lia|]. split; [lia|done].
Qed.

(** The height loop from row [r] on, in closed form. *)
Lemma total_height_loop_eq (u : uniforms) (numRows : Z) (tileH spacingY : Q) :
  forall fuel r h, (Z.of_nat (r + fuel) <= numRows)%Z ->
  total_height_loop u numRows tileH spacingY r fuel h ==
  h + inject_Z (Z.of_nat fuel) * tileH +
  spacingY * inject_Z (Z.of_nat (length (List.filter
     (fun j => (Z.of_nat j <? numRows - 1)%Z && negb (isGapZero u (Z.of_nat j + 1)))
     (seq r fuel)))).
Proof.
  induction fuel as [|f IH]; intros r h Hr; cbn [total_height_loop].
  - cbn [seq List.filter length]. change (Z.of_nat 0) with 0%Z. unfold inject_Z. ring.
  - replace (Z.of_nat r <? numRows)%Z with true by (symmetry; apply Z.ltb_lt; lia).
    rewrite Nat2Z.inj_succ, <- Z.add_1_r, inject_Z_plus.
    destruct ((Z.of_nat r <? numRows - 1)%Z && negb (isGapZero u (Z.of_nat r + 1))) eqn:E;
      rewrite IH by lia; cbn [seq List.filter]; rewrite E; cbn [length].
    + rewrite Nat2Z.inj_succ, <- Z.add_1_r, inject_Z_plus. change (inject_Z 1) with 1. ring.
    + change (inject_Z 1) with 1. ring.
Qed.

Lemma NoDup_map_succ (l : list nat) :
  List.NoDup l -> List.NoDup (map (fun j => Z.of_nat j + 1)%Z l).
Proof.
  induction 1 as [|x l Hx Hl IH]; simpl; constructor; [|done].
  intros Hin. apply in_map_iff in Hin as (y & Hy & Hiny).
  assert (y = x) by lia. subst. done.
Qed.

(** The row boundaries [1 .. m] found in a duplicate-free GapSet inside
    that range are exactly its [length] entries. *)
Lemma count_gap_boundaries (u : uniforms) (m : nat) :
  (0 <= gap_count u <= 8)%Z -> (Z.to_nat (gap_count u) <= length (gap_rows u))%nat ->
  List.NoDup (gap_set u) -> Forall (fun g => 1 <= g <= Z.of_nat m)%Z (gap_set u) ->
  length (List.filter (fun j => isGapZero u (Z.of_nat j + 1)) (seq 0 m)) = length (gap_set u).
Proof.
  intros Hgc Hlen Hnd Hall.
  rewrite <- (length_map (fun j => Z.of_nat j + 1)%Z).
  apply Permutation_length, Permutation.NoDup_Permutation.
  - apply NoDup_map_succ, List.NoDup_filter, List.seq_NoDup.
  - done.
  - intros x. rewrite in_map_iff. split.
    + intros (j & <- & Hj). apply filter_In in Hj as [_ Hj].
      by apply isGapZero_In in Hj.
    + intros Hx. rewrite List.Forall_forall in Hall. specialize (Hall x Hx).
      exists (Z.to_nat (x - 1)). split; [lia|].
      apply filter_In. split; [apply in_seq; lia|].
      apply isGapZero_In; [done|done|]. by replace (Z.of_nat (Z.to_nat (x - 1)) + 1)%Z with x by lia.
Qed.

(** Claim C4: for a GapSet of distinct row boundaries between rows
    (1 .. tilesPerColumn - 1) that fits the 8-entry array, the total grid
    height is tilesPerColumn * tileH + spacingY * (tilesPerColumn - 1 - |GapSet|). *)
Theorem total_grid_height_gaps (u : uniforms) (numRows : Z) (tileH spacingY : Q) :
  (1 <= numRows)%Z ->
  (0 <= gap_count u <= 8)%Z ->
  (Z.to_nat (gap_count u) <= length (gap_rows u))%nat ->
  List.NoDup (gap_set u) ->
  Forall (fun g => 1 <= g <= numRows - 1)%Z (gap_set u) ->
  computeTotalGridHeight u numRows tileH spacingY ==
  inject_Z numRows * tileH +
  spacingY * inject_Z (numRows - 1 - Z.of_nat (length (gap_set u))).
Proof.
  intros Hn Hgc Hlen Hnd Hall. unfold computeTotalGridHeight.
  rewrite total_height_loop_eq by lia.
  rewrite Z2Nat.id by lia.
  set (m := Z.to_nat (numRows - 1)).
  replace (Z.to_nat numRows) with (S m) by (unfold m; lia).
  rewrite List.seq_S, List.filter_app. cbn [List.filter].
  replace (Z.of_nat (0 + m) <? numRows - 1)%Z with false by (symmetry; apply Z.ltb_ge; unfold m; lia).
  simpl andb. rewrite app_nil_r.
  rewrite (filter_ext_in _ (fun j => negb (isGapZero u (Z.of_nat j + 1)))).
  2:{ intros j Hj. apply in_seq in Hj. replace (Z.of_nat j <? numRows - 1)%Z with true
        by (symmetry; apply Z.ltb_lt; unfold m in Hj; lia). done. }
  pose proof (filter_length (fun j => isGapZero u (Z.of_nat j + 1)) (seq 0 m)) as Hfl.
  rewrite length_seq in Hfl.
  rewrite (count_gap_boundaries u m) in Hfl; try done.
  2:{ eapply List.Forall_impl; [|exact Hall]. simpl. intros a Ha. unfold m. lia. }
  replace (length (List.filter (fun j => negb (isGapZero u (Z.of_nat j + 1))) (seq 0 m)))
    with (m - length (gap_set u))%nat by lia.
  rewrite Nat2Z.inj_sub by lia.
  replace (Z.of_nat m) with (numRows - 1)%Z by (unfold m; lia).
  ring.
Qed.

Lemma total_grid_height_gaps_witness :
  ((1 <= 15)%Z /\ (0 <= gap_count default_uniforms <= 8)%Z /\
   (Z.to_nat (gap_count default_uniforms) <= length (gap_rows default_uniforms))%nat /\
   List.NoDup (gap_set default_uniforms) /\
   Forall (fun g => 1 <= g <= 15 - 1)%Z (gap_set default_uniforms)) /\
  computeTotalGridHeight default_uniforms 15 144 90 ==
  inject_Z 15 * 144 + 90 * inject_Z (15 - 1 - Z.of_nat (length (gap_set default_uniforms))).
Proof.
  assert (H1 : (1 <= 15)%Z) by lia.
  assert (H2 : (0 <= gap_count default_uniforms <= 8)%Z) by (vm_compute; split; discriminate).
  assert (H3 : (Z.to_nat (gap_count default_uniforms) <= length (gap_rows default_uniforms))%nat)
    by (vm_compute; lia).
  assert (H4 : List.NoDup (gap_set default_uniforms)).
  { vm_compute. constructor; [simpl; intros [H|H]; [discriminate H|exact H]|].
    constructor; [simpl; tauto|constructor]. }
  assert (H5 : Forall (fun g => 1 <= g <= 15 - 1)%Z (gap_set default_uniforms)).
  { vm_compute. repeat constructor; discriminate. }
  split; [tauto|].
  exact (total_grid_height_gaps default_uniforms 15 144 90 H1 H2 H3 H4 H5).
Defined.

(** The spec's example: with gaps after rows 5 and 10 the 15-row grid is
    15 * 144 + 12 * 90 pixels high, two spacings less than without gaps. *)
Example default_grid_height : computeTotalGridHeight default_uniforms 15 144 90 == 3240.
Proof. vm_compute. reflexivity. Qed.

Lemma tile_shifted_rect_or_background_witness :
  ((0 <= tile_col example_uniforms (V2 (195 # 2) (411 # 2)) < u_numTilesPerRow example_uniforms)%Z /\
   (0 <= tile_row example_uniforms (V2 (195 # 2) (411 # 2)) < u_numTilesPerCol example_uniforms)%Z) /\
  (let col := tile_col example_uniforms (V2 (195 # 2) (411 # 2)) in
   let row := tile_row example_uniforms (V2 (195 # 2) (411 # 2)) in
   let s := nominal_start example_uniforms col row in
   let off := tile_offset example_uniforms col row in
   let rs := tile_rect_start example_uniforms col row in
   vx rs == vx s + inject_Z (ix off) /\ vy rs == vy s + inject_Z (iy off) /\
   (shader_main example_uniforms (V2 (195 # 2) (411 # 2)) = Background <->
      ~ ((vx rs <= vx (V2 (195 # 2) (411 # 2)) /\ vx (V2 (195 # 2) (411 # 2)) < vx rs + u_tileW example_uniforms) /\
         (vy rs <= vy (V2 (195 # 2) (411 # 2)) /\ vy (V2 (195 # 2) (411 # 2)) < vy rs + u_tileH example_uniforms)))).
Proof.
  assert (Hc : tile_col example_uniforms (V2 (195 # 2) (411 # 2)) = 0%Z) by (vm_compute; reflexivity).
  assert (Hr : tile_row example_uniforms (V2 (195 # 2) (411 # 2)) = 0%Z) by (vm_compute; reflexivity).
  assert (H1 : (0 <= tile_col example_uniforms (V2 (195 # 2) (411 # 2)) < u_numTilesPerRow example_uniforms)%Z)
    by (rewrite Hc; simpl; lia).
  assert (H2 : (0 <= tile_row example_uniforms (V2 (195 # 2) (411 # 2)) < u_numTilesPerCol example_uniforms)%Z)
    by (rewrite Hr; simpl; lia).
  split; [split; assumption|].
  exact (tile_shifted_rect_or_background example_uniforms (V2 (195 # 2) (411 # 2)) H1 H2).
Defined.

(** The spec's example: the tile with nominal origin (100, 200) and offset
    (-3, 5) is displayed from (97, 205); the pixel (100.5, 203.5), inside
    the nominal rectangle but below the moved one, shows the background. *)
Example example_tile_moved :
  vx (nominal_start example_uniforms 0 0) == 100 /\ vy (nominal_start example_uniforms 0 0) == 200 /\
  vx (tile_rect_start example_uniforms 0 0) == 97 /\ vy (tile_rect_start example_uniforms 0 0) == 205 /\
  shader_main example_uniforms (V2 (201 # 2) (407 # 2)) = Background /\
  shader_main example_uniforms (V2 (195 # 2) (411 # 2)) <> Background.
Proof. vm_compute. repeat split; try reflexivity. discriminate. Qed.

End ShaderFacts.

Module KeyFacts.
Import Keys.

Lemma handle_key_rotation_even (t : transform) (k : key) :
  rotation t = 0%Z \/ rotation t = 2%Z ->
  rotation (handle_key t k) = 0%Z \/ rotation (handle_key t k) = 2%Z.
Proof. intros [H|H]; destruct k; simpl; rewrite ?H; auto. Qed.

(** Claim C10: from rotation 0, every sequence of key presses leaves the
    rotation at 0 or 2; the 90 and 270 degree steps 1 and 3 are never
    reached through the key handler. *)
Theorem rotation_stays_half_turn (ks : list key) :
  let r := rotation (run_keys ks) in
  (r = 0%Z \/ r = 2%Z) /\ r <> 1%Z /\ r <> 3%Z.
Proof.
  cbv zeta. unfold run_keys.
  assert (forall t, rotation t = 0%Z \/ rotation t = 2%Z ->
            rotation (fold_left handle_key ks t) = 0%Z \/ rotation (fold_left handle_key ks t) = 2%Z) as Hinv.
  { induction ks as [|k ks IH]; intros t Ht; simpl; [done|]. apply IH, handle_key_rotation_even, Ht. }
  destruct (Hinv initial_transform (or_introl eq_refl)) as [H|H]; rewrite H; lia.
Qed.

End KeyFacts.

(* ------------------------------------------------------------------ *)
Module SupervisorFacts.
Import Supervisor.

(** The run of the C1 failing input: one EINVAL dequeue starts the worker;
    the worker's [restart_v4l_stream] succeeds on the open handle. *)
Definition einval_then_restart : list event :=
  [MainIter 10 (DqEINVAL false) []; BgRestartStep 20 RestartStreamOk].

(** Claim C1 (code divergence): [manual_restart_v4l_only] raises
    [need_gl_update] on a bare restart success, while the worker is still
    in its verify loop; the next main iteration then clears
    [signal_lost] and hides the pattern before any verified dequeue. *)
Theorem need_gl_update_before_verify :
  need_gl_update (run (initial_state 0) einval_then_restart) = true /\
  bg (run (initial_state 0) einval_then_restart) = BgVerify /\
  let s := run (initial_state 0) (einval_then_restart ++ [MainIter 30 DqEAGAIN []]) in
  bg s = BgVerify /\ signal_lost s = false /\ pattern_on s = false /\ need_gl_update s = false.
Proof. vm_compute. repeat split. Qed.

(** Claim C2, counterexample: the first EINVAL (count 1, below the
    threshold 8) already starts the background reopen, and a failed
    restart of that worker closes the device handle. *)
Lemma einval_below_threshold_reopens_cex :
  let s1 := run (initial_state 0) [MainIter 10 (DqEINVAL false) []] in
  einval_count s1 = 1 /\ (einval_count s1 < EINVAL_RESTART_THRESHOLD)%Z /\
  auto_reopen_in_progress s1 = true /\ bg s1 = BgRestart /\
  let s2 := run (initial_state 0)
              [MainIter 10 (DqEINVAL false) []; BgRestartStep 20 (ReopenFailed false)] in
  device_closes s2 = 1%nat /\ fd_open s2 = false.
Proof. vm_compute. repeat split. Qed.

(** Claim C2, as the code has it: an EINVAL dequeue that leaves the
    counter below the threshold 8 increments it, sets [signal_lost] and the
    fallback pattern, runs no in-place soft restart and makes sure the
    background reopen worker is running (starting it when idle). *)
Theorem einval_below_threshold_step (s : state) (now : Z) (restarted : bool) :
  (einval_count s + 1 < EINVAL_RESTART_THRESHOLD)%Z ->
  let s' := dequeue_step s now (DqEINVAL restarted) in
  einval_count s' = (einval_count s + 1)%Z /\
  signal_lost s' = true /\ pattern_on s' = true /\
  soft_restart_rounds s' = soft_restart_rounds s /\
  auto_reopen_in_progress s' = true /\
  bg s' = (if auto_reopen_in_progress s then bg s else BgRestart) /\
  fd_open s' = fd_open s /\ device_closes s' = device_closes s /\
  device_opens s' = device_opens s.
Proof.
  intros H. cbv zeta. unfold dequeue_step.
  cbn [einval_count set_einval set_signal_lost setPattern].
  replace (EINVAL_RESTART_THRESHOLD <=? einval_count s + 1)%Z with false
    by (symmetry; apply Z.leb_gt; lia).
  unfold start_background_reopen.
  destruct (auto_reopen_in_progress s) eqn:E; cbn; rewrite ?E; repeat split; exact E.
Qed.

Lemma einval_below_threshold_step_witness :
  (einval_count (initial_state 0) + 1 < EINVAL_RESTART_THRESHOLD)%Z /\
  einval_count (dequeue_step (initial_state 0) 10 (DqEINVAL false)) = 1%Z.
Proof.
  split; [vm_compute; reflexivity|].
  apply (einval_below_threshold_step (initial_state 0) 10 false).
  vm_compute. reflexivity.
Defined.

(** After a good frame at [t], [last_recovered_time] equals
    [last_good_frame], so the timeout fires exactly when [3000] ms (the
    grace window) have passed: the 800 ms timeout never decides alone. *)
Lemma timeout_after_good_frame (s : state) (t now : Z) :
  timeout_step (mark_good t s) now =
  if negb (signal_lost s) && (RECOVERY_GRACE_MS <=? now - t)%Z
  then start_background_reopen (setPattern true (set_signal_lost true (mark_good t s)))
  else mark_good t s.
Proof.
  unfold timeout_step. cbn [signal_lost last_good_frame last_recovered_time mark_good].
  destruct (signal_lost s); [reflexivity|]. cbn [negb andb].
  unfold PATTERN_TIMEOUT_MS, RECOVERY_GRACE_MS.
  destruct (Z.ltb_spec (now - t) 3000), (Z.leb_spec 3000 (now - t)); try lia;
  destruct (Z.ltb_spec 800 (now - t)); try lia; reflexivity.
Qed.

(** The run of the C6 failing input: a good frame at 10 ms, then no frame
    until 3011 ms. *)
Definition frame_then_silence (t : Z) : list event :=
  [MainIter 10 (DqFrame 100 true) []; MainIter t DqEAGAIN []].

(** Claim C6 (code divergence): every requeued good frame also refreshes
    [last_recovered_time], so 990 ms without a frame (more than the 800 ms
    timeout, no recovery ever run) neither declares signal loss nor starts
    the background reopen; that only happens once 3000 ms have passed. *)
Theorem timeout_masked_by_good_frame :
  let s := run (initial_state 0) (frame_then_silence 1000) in
  (1000 - last_good_frame s > PATTERN_TIMEOUT_MS)%Z /\
  signal_lost s = false /\ auto_reopen_in_progress s = false /\ pattern_on s = false /\
  let s' := run (initial_state 0) (frame_then_silence 3011) in
  signal_lost s' = true /\ auto_reopen_in_progress s' = true.
Proof. vm_compute. repeat split. Qed.

(** Claim C7, counterexample: from the initial state an unreadable
    SOURCE_CHANGE format leaves the counter at 0 while an EINVAL dequeue
    sets it to 1. *)
Lemma source_change_counter_cex :
  einval_count (source_change_step (initial_state 0) None) = 0%Z /\
  einval_count (dequeue_step (initial_state 0) 0 (DqEINVAL false)) = 1%Z.
Proof. vm_compute. split; reflexivity. Qed.

(** Claim C7, as the code has it: below the threshold, an unreadable or
    zero-sized SOURCE_CHANGE format has the same effect as an EINVAL
    dequeue (signal loss, pattern, background reopen) except that the
    error counter is left unchanged. *)
Theorem source_change_like_einval_without_count
    (s : state) (fmt : option (Z * Z)) (now : Z) (restarted : bool) :
  source_format_invalid fmt = true ->
  (einval_count s + 1 < EINVAL_RESTART_THRESHOLD)%Z ->
  source_change_step s fmt = set_einval (einval_count s) (dequeue_step s now (DqEINVAL restarted)) /\
  einval_count (source_change_step s fmt) = einval_count s.
Proof.
  intros Hf Hc. unfold source_change_step. rewrite Hf.
  unfold dequeue_step. cbn [einval_count set_einval set_signal_lost setPattern].
  replace (EINVAL_RESTART_THRESHOLD <=? einval_count s + 1)%Z with false
    by (symmetry; apply Z.leb_gt; lia).
  unfold start_background_reopen.
  destruct s; cbn; destruct auto_reopen_in_progress0; split; reflexivity.
Qed.

Lemma source_change_like_einval_without_count_witness :
  source_format_invalid (Some (1920, 0)) = true /\
  (einval_count (initial_state 0) + 1 < EINVAL_RESTART_THRESHOLD)%Z /\
  einval_count (source_change_step (initial_state 0) (Some (1920, 0))) = 0%Z.
Proof.
  split; [reflexivity|]. split; [vm_compute; reflexivity|].
  apply (source_change_like_einval_without_count (initial_state 0) (Some (1920, 0)) 5 false);
    vm_compute; reflexivity.
Defined.

End SupervisorFacts.

(* ------------------------------------------------------------------ *)
(** Invariants of the recovery loop over every interleaving of main-loop
    iterations, worker steps and the 'o' key. *)
Module SupervisorInvariants.
Import Supervisor.

Definition inv (s : state) : Prop :=
  (auto_reopen_in_progress s = true <-> bg s <> BgIdle) /\
  soft_restart_rounds s = 0%nat /\
  (0 <= einval_count s <= 1)%Z /\
  (auto_reopen_in_progress s = false -> einval_count s = 0%Z) /\
  (signal_lost s = true -> pattern_on s = true).

Ltac inv_cases :=
  repeat match goal with
         | |- context [if ?b then _ else _] => destruct b eqn:?
         | |- context [match ?p with BgIdle => _ | BgRestart => _ | BgVerify => _ end] => destruct p eqn:?
         end.

Ltac inv_solve :=
  cbn in *; intuition (try congruence; try lia).

Lemma inv_initial (t0 : Z) : inv (initial_state t0).
Proof. unfold inv; cbn; intuition (try congruence; try lia). Qed.

Lemma inv_start (s : state) : inv s -> inv (start_background_reopen s).
Proof.
  unfold start_background_reopen, inv.
  destruct s as [c sl po ng ar b lg lr fo dc dop sr]; cbn.
  destruct ar; inv_solve.
Qed.

Lemma inv_start_lost (s : state) :
  inv s -> inv (start_background_reopen (setPattern true (set_signal_lost true s))).
Proof.
  intros H. apply inv_start. revert H. unfold inv.
  destruct s as [c sl po ng ar b lg lr fo dc dop sr]; inv_solve.
Qed.

Lemma inv_gl (s : state) : inv s -> inv (gl_update_step s).
Proof.
  unfold gl_update_step, inv.
  destruct s as [c sl po ng ar b lg lr fo dc dop sr]; cbn.
  destruct ng; inv_solve.
Qed.

Lemma inv_dequeue (s : state) (now : Z) (r : dq_result) :
  inv s -> auto_reopen_in_progress s = false -> inv (dequeue_step s now r).
Proof.
  intros H Har. destruct r as [|restarted| |bytes ok]; cbn [dequeue_step]; [exact H| |exact H|].
  - assert (Hc : einval_count s = 0%Z) by (apply H; exact Har).
    cbn [einval_count set_einval set_signal_lost setPattern].
    replace (EINVAL_RESTART_THRESHOLD <=? einval_count s + 1)%Z with false
      by (symmetry; apply Z.leb_gt; unfold EINVAL_RESTART_THRESHOLD; lia).
    unfold start_background_reopen. revert H Har Hc. unfold inv.
    destruct s as [c sl po ng ar b lg lr fo dc dop sr]; cbn. intros H Har Hc.
    subst ar c. inv_solve.
  - assert (H1 : inv (if (bytes =? 0)%Z
                      then start_background_reopen (setPattern true (set_signal_lost true s))
                      else s)) by (destruct (bytes =? 0)%Z; [apply inv_start_lost|]; exact H).
    revert H1.
    generalize (if (bytes =? 0)%Z
                then start_background_reopen (setPattern true (set_signal_lost true s))
                else s) as s1.
    intros s1 H1. destruct ok; [|exact H1].
    revert H1. unfold inv.
    destruct s1 as [c sl po ng ar b lg lr fo dc dop sr]; cbn.
    destruct sl; inv_solve.
Qed.

Lemma inv_source_change (evs : list (option (Z * Z))) (s : state) :
  inv s -> inv (fold_left source_change_step evs s).
Proof.
  revert s. induction evs as [|fmt evs IH]; intros s H; cbn; [exact H|].
  apply IH. unfold source_change_step.
  destruct (source_format_invalid fmt); [apply inv_start_lost|]; exact H.
Qed.

Lemma inv_timeout (s : state) (now : Z) : inv s -> inv (timeout_step s now).
Proof.
  intros H. unfold timeout_step.
  destruct (negb (signal_lost s) && (PATTERN_TIMEOUT_MS <? now - last_good_frame s))%Z; [|exact H].
  destruct (negb _); [apply inv_start_lost|]; exact H.
Qed.

Lemma inv_main (s : state) (now : Z) (r : dq_result) (evs : list (option (Z * Z))) :
  inv s -> inv (main_iteration s now r evs).
Proof.
  intros H. unfold main_iteration. cbv zeta.
  apply inv_timeout, inv_source_change.
  pose proof (inv_gl s H) as Hg.
  destruct (auto_reopen_in_progress (gl_update_step s)) eqn:E; [exact Hg|].
  apply inv_dequeue; assumption.
Qed.

Lemma inv_bg_restart (s : state) (now : Z) (r : restart_result) :
  inv s -> inv (bg_restart_step s now r).
Proof.
  unfold bg_restart_step, inv.
  destruct s as [c sl po ng ar b lg lr fo dc dop sr]; cbn.
  destruct b; [inv_solve| |inv_solve].
  destruct r as [| |opened]; cbn; [destruct fo| |destruct opened, fo]; inv_solve.
Qed.

Lemma inv_bg_verify (s : state) (now : Z) (v : bool) :
  inv s -> inv (bg_verify_step s now v).
Proof.
  unfold bg_verify_step, inv.
  destruct s as [c sl po ng ar b lg lr fo dc dop sr]; cbn.
  destruct b; [inv_solve|inv_solve|]. destruct v; inv_solve.
Qed.

Lemma inv_step (s : state) (e : event) : inv s -> inv (step s e).
Proof.
  destruct e; cbn [step].
  - apply inv_main.
  - apply inv_bg_restart.
  - apply inv_bg_verify.
  - apply inv_start.
Qed.

Lemma inv_run (t0 : Z) (es : list event) : inv (run (initial_state t0) es).
Proof.
  unfold run. generalize (initial_state t0) (inv_initial t0).
  induction es as [|e es IH]; intros s H; cbn; [exact H|].
  apply IH, inv_step, H.
Qed.

End SupervisorInvariants.

Module SupervisorInvariantFacts.
Import Supervisor SupervisorInvariants.

(** In every run the consecutive-EINVAL counter stays at 0 or 1: the
    first EINVAL starts the worker, the main loop stops dequeuing while it
    runs, and the worker only ends after resetting the counter.  So the
    in-place soft restart of the EINVAL branch (counter >= 8) never runs. *)
Theorem einval_soft_restart_unreachable (t0 : Z) (es : list event) :
  let s := run (initial_state t0) es in
  (0 <= einval_count s <= 1)%Z /\
  (einval_count s < EINVAL_RESTART_THRESHOLD)%Z /\
  soft_restart_rounds s = 0%nat.
Proof.
  destruct (inv_run t0 es) as (_ & Hr & Hc & _).
  cbv zeta. unfold EINVAL_RESTART_THRESHOLD. repeat split; lia.
Qed.

(** In every run, while [signal_lost] is set the fallback pattern is on. *)
Theorem signal_lost_shows_pattern (t0 : Z) (es : list event) :
  let s := run (initial_state t0) es in
  signal_lost s = true -> pattern_on s = true.
Proof. apply (inv_run t0 es). Qed.

End SupervisorInvariantFacts.

(* ------------------------------------------------------------------ *)
Module StandaloneFacts.
Import Standalone.

Definition is_einval (o : dq_outcome) : bool :=
  match o with DQ_EINVAL _ _ => true | _ => false end.

Lemma dequeue_einval_count (s : app_state) (b : bool) (now : Z) :
  (0 <= stream_reset_count s <= STREAM_RESET_RETRIES)%Z ->
  stream_reset_count (snd (dequeueBuffer s (DQ_EINVAL b now))) =
  Z.min STREAM_RESET_RETRIES (stream_reset_count s + 1).
Proof.
  intros H. unfold dequeueBuffer, restartStream, stopStreaming, startStreaming,
    STREAM_RESET_RETRIES in *.
  destruct (Z.leb_spec 3 (stream_reset_count s)).
  - cbn. lia.
  - destruct (streaming s), b; cbn; lia.
Qed.

(** Each EINVAL since the last good dequeue uses one of the
    [STREAM_RESET_RETRIES] restart attempts, whether the restart
    succeeds or not: after [n] EINVALs the counter is [min 3 (c + n)]. *)
Theorem einval_uses_restart_budget (s : app_state) (os : list dq_outcome) :
  (0 <= stream_reset_count s <= STREAM_RESET_RETRIES)%Z ->
  Forall (fun o => is_einval o = true) os ->
  stream_reset_count (dequeue_all s os) =
  Z.min STREAM_RESET_RETRIES (stream_reset_count s + Z.of_nat (length os)).
Proof.
  unfold dequeue_all. revert s. induction os as [|o os IH]; intros s H0 Hall; cbn.
  - unfold STREAM_RESET_RETRIES in *. lia.
  - inversion Hall as [|? ? Ho Hrest]; subst.
    destruct o as [|b now| |]; try discriminate.
    rewrite IH; [| |exact Hrest].
    + rewrite dequeue_einval_count by lia. unfold STREAM_RESET_RETRIES. lia.
    + rewrite dequeue_einval_count by lia. unfold STREAM_RESET_RETRIES in *. lia.
Qed.

Lemma einval_uses_restart_budget_witness :
  (0 <= stream_reset_count {| streaming := true; stream_reset_count := 0; haveTestPattern := true;
                              showPattern := false; lastFrameTime := 0 |} <= STREAM_RESET_RETRIES)%Z /\
  stream_reset_count
    (dequeue_all {| streaming := true; stream_reset_count := 0; haveTestPattern := true;
                    showPattern := false; lastFrameTime := 0 |}
                 [DQ_EINVAL true 10; DQ_EINVAL false 20; DQ_EINVAL true 30; DQ_EINVAL true 40]) = 3%Z.
Proof.
  split; [vm_compute; split; discriminate|].
  rewrite (einval_uses_restart_budget
             {| streaming := true; stream_reset_count := 0; haveTestPattern := true;
                showPattern := false; lastFrameTime := 0 |}
             [DQ_EINVAL true 10; DQ_EINVAL false 20; DQ_EINVAL true 30; DQ_EINVAL true 40]).
  - reflexivity.
  - vm_compute; split; discriminate.
  - repeat constructor.
Defined.

(** After a good dequeue at time [t], and also after an EINVAL whose
    stream restart succeeds at [t] (while restart attempts remain), the
    test pattern stays hidden for [PATTERN_TIMEOUT_MS] = 3000 ms: a
    restarted stream counts as a fresh frame for the timeout. *)
Theorem pattern_hidden_after_frame_or_restart (s : app_state) (i t now : Z) :
  (now - t <= PATTERN_TIMEOUT_MS)%Z ->
  (stream_reset_count s < STREAM_RESET_RETRIES)%Z ->
  showPattern (updatePatternState (snd (dequeueBuffer s (DQ_OK i t))) now) = false /\
  fst (dequeueBuffer s (DQ_EINVAL true t)) = (-1)%Z /\
  showPattern (updatePatternState (snd (dequeueBuffer s (DQ_EINVAL true t))) now) = false.
Proof.
  intros Ht Hc. unfold dequeueBuffer, restartStream, updatePatternState, stopStreaming,
    startStreaming.
  replace (STREAM_RESET_RETRIES <=? stream_reset_count s)%Z with false
    by (symmetry; apply Z.leb_gt; lia).
  replace (PATTERN_TIMEOUT_MS <? now - t)%Z with false
    by (symmetry; apply Z.ltb_ge; lia).
  destruct (streaming s); cbn;
    (replace (PATTERN_TIMEOUT_MS <? now - t)%Z with false
       by (symmetry; apply Z.ltb_ge; lia)); cbn; repeat split.
Qed.

Lemma pattern_hidden_after_frame_or_restart_witness :
  (2500 - 100 <= PATTERN_TIMEOUT_MS)%Z /\
  (stream_reset_count {| streaming := true; stream_reset_count := 1; haveTestPattern := true;
                         showPattern := true; lastFrameTime := 0 |} < STREAM_RESET_RETRIES)%Z /\
  showPattern (updatePatternState
                 (snd (dequeueBuffer {| streaming := true; stream_reset_count := 1;
                                        haveTestPattern := true; showPattern := true;
                                        lastFrameTime := 0 |} (DQ_OK 2 100))) 2500) = false.
Proof.
  split; [vm_compute; discriminate|]. split; [vm_compute; reflexivity|].
  apply (pattern_hidden_after_frame_or_restart
           {| streaming := true; stream_reset_count := 1; haveTestPattern := true;
              showPattern := true; lastFrameTime := 0 |} 2 100 2500);
    vm_compute; first [discriminate | reflexivity].
Defined.

(** [parseArgs] reads the arguments left to right: once a prefix has
    parsed, the rest is parsed from the values the prefix set. *)
Lemma parse_loop_app (n : nat) (args more : list string) (d t : string) (v : bool)
  (d' t' : string) (v' : bool) :
  (length args <= n)%nat ->
  parse_loop args d t v = ArgsOk d' t' v' ->
  parse_loop (args ++ more) d t v = parse_loop more d' t' v'.
Proof.
  revert args d t v. induction n as [|n IH]; intros args d t v Hlen H.
  - destruct args; [cbn in *; congruence|cbn in Hlen; lia].
  - destruct args as [|a rest]; [cbn in *; congruence|].
    cbn in Hlen |- *. cbn in H.
    destruct (String.eqb a "-d" || String.eqb a "--device").
    { destruct rest as [|x rest']; [discriminate|].
      apply (IH rest'); [cbn in Hlen; lia|exact H]. }
    destruct (String.eqb a "-t" || String.eqb a "--test-pattern").
    { destruct rest as [|x rest']; [discriminate|].
      apply (IH rest'); [cbn in Hlen; lia|exact H]. }
    destruct (String.eqb a "-v" || String.eqb a "--verbose").
    { apply IH; [lia|exact H]. }
    destruct (String.eqb a "-h" || String.eqb a "--help"); discriminate.
Qed.

(** After arguments that parse, a further [-d <dev>] makes [dev] the
    device (the last one wins), while a trailing [-d] with no value makes
    the whole command line fail. *)
Theorem parseArgs_last_device_wins (args : list string) (d t : string) (v : bool) (dev : string) :
  parseArgs args = ArgsOk d t v ->
  parseArgs (args ++ ["-d"; dev]%string) = ArgsOk dev t v /\
  parseArgs (args ++ ["-d"]%string) = ArgsFail.
Proof.
  unfold parseArgs. intros H. split;
    rewrite (parse_loop_app (length args) args _ _ _ _ d t v (le_n _) H); reflexivity.
Qed.

Lemma parseArgs_last_device_wins_witness :
  parseArgs ["-d"; "/dev/video2"; "-v"]%string = ArgsOk "/dev/video2" "" true /\
  parseArgs (["-d"; "/dev/video2"; "-v"]%string ++ ["-d"; "/dev/video1"]%string)
    = ArgsOk "/dev/video1" "" true.
Proof.
  split; [reflexivity|].
  apply (parseArgs_last_device_wins ["-d"; "/dev/video2"; "-v"]%string "/dev/video2" "" true
           "/dev/video1"); reflexivity.
Defined.

(** After arguments that parse, [-h] ends the parse with the help exit:
    whatever follows it, even an unknown option, is never examined. *)
Theorem parseArgs_help_ignores_rest (args rest : list string) (d t : string) (v : bool) :
  parseArgs args = ArgsOk d t v ->
  parseArgs (args ++ "-h"%string :: rest) = ArgsExitHelp.
Proof.
  unfold parseArgs. intros H.
  rewrite (parse_loop_app (length args) args _ _ _ _ d t v (le_n _) H). reflexivity.
Qed.

Lemma parseArgs_help_ignores_rest_witness :
  parseArgs ["-v"]%string = ArgsOk "/dev/video0" "" true /\
  parseArgs (["-v"]%string ++ "-h"%string :: ["--bogus"]%string) = ArgsExitHelp.
Proof.
  split; [reflexivity|].
  apply (parseArgs_help_ignores_rest ["-v"]%string ["--bogus"]%string "/dev/video0" "" true).
  reflexivity.
Defined.

Lemma first_existing_spec (fe : string -> bool) (paths : list string) :
  (first_existing fe paths = ""%string /\ Forall (fun p => fe p = false) paths) \/
  (exists pre post, paths = pre ++ first_existing fe paths :: post /\
                    fe (first_existing fe paths) = true /\
                    Forall (fun p => fe p = false) pre).
Proof.
  induction paths as [|p rest IH]; cbn.
  - left. split; [reflexivity|constructor].
  - destruct (fe p) eqn:E.
    + right. exists [], rest. split; [reflexivity|]. split; [exact E|constructor].
    + destruct IH as [[H1 H2]|(pre & post & H1 & H2 & H3)].
      * left. split; [exact H1|constructor; assumption].
      * right. exists (p :: pre), post. split; [cbn; f_equal; exact H1|].
        split; [exact H2|constructor; assumption].
Qed.

(** [findTestPatternImage] returns a non-empty command-line path as it is,
    without checking that it exists; otherwise it returns the first
    existing path of the fixed search list (working-directory names before
    the executable's directory), or "" when none exists. *)
Theorem findTestPatternImage_first_existing (fe : string -> bool) (rl : option string)
  (cli : string) :
  let paths := test_pattern_search_paths (getExecutableDir rl) in
  let r := findTestPatternImage fe rl cli in
  (cli <> ""%string /\ r = cli) \/
  (cli = ""%string /\ r = ""%string /\ Forall (fun p => fe p = false) paths) \/
  (cli = ""%string /\ exists pre post, paths = pre ++ r :: post /\ fe r = true /\
                                       Forall (fun p => fe p = false) pre).
Proof.
  cbv zeta. unfold findTestPatternImage.
  destruct (String.eqb_spec cli "") as [->|Hne]; cbn [negb].
  - destruct (first_existing_spec fe (test_pattern_search_paths (getExecutableDir rl)))
      as [[H1 H2]|H]; [right; left; auto|right; right; auto].
  - left. auto.
Qed.

(** With EGL, [main] always ends up with a test pattern: the image file
    is used only when it was found, [stbi_info] reports a size within
    1..8192 x 1..8192 and [stbi_load] decodes it; in every other case the
    procedural colour bars are generated.  Without EGL nothing is set up:
    the state, and so [haveTestPattern], is left as it was ([false] in
    [main]). *)
Theorem setup_test_pattern_spec (egl : bool) (fe : string -> bool) (rl : option string)
  (info : string -> option (Z * Z)) (decodes : string -> bool) (cli : string) (s : app_state) :
  let '(src, s') := setup_test_pattern egl fe rl info decodes cli s in
  if egl then
    haveTestPattern s' = true /\
    match src with
    | PatternImage p =>
        p = findTestPatternImage fe rl cli /\ p <> ""%string /\ decodes p = true /\
        exists w h, info p = Some (w, h) /\
                    (0 < w <= MAX_IMAGE_WIDTH)%Z /\ (0 < h <= MAX_IMAGE_HEIGHT)%Z
    | PatternProcedural => True
    | PatternNone => False
    end
  else src = PatternNone /\ s' = s.
Proof.
  unfold setup_test_pattern.
  destruct egl; [|destruct (negb _); split; reflexivity].
  destruct (String.eqb_spec (findTestPatternImage fe rl cli) "") as [E|E]; cbn [negb];
    [split; [reflexivity|exact I]|].
  unfold loadTestPatternImage.
  destruct (String.eqb_spec (findTestPatternImage fe rl cli) "") as [E'|_]; [contradiction|].
  destruct (info (findTestPatternImage fe rl cli)) as [[w h]|] eqn:Hi;
    [|split; [reflexivity|exact I]].
  destruct ((MAX_IMAGE_WIDTH <? w) || (MAX_IMAGE_HEIGHT <? h))%Z eqn:Hm;
    [split; [reflexivity|exact I]|].
  destruct ((w <=? 0) || (h <=? 0))%Z eqn:Hz; [split; [reflexivity|exact I]|].
  destruct (decodes (findTestPatternImage fe rl cli)) eqn:Hd; [|split; [reflexivity|exact I]].
  split; [reflexivity|].
  apply orb_false_iff in Hm as [Hw Hh]. apply orb_false_iff in Hz as [Hw0 Hh0].
  apply Z.ltb_ge in Hw, Hh. apply Z.leb_gt in Hw0, Hh0.
  repeat split; try assumption. exists w, h. repeat split; try assumption; lia.
Qed.

Lemma procedural_rgb_length (b : Z) :
  length (match b with
          | 0 => [255; 255; 255] | 1 => [255; 255; 0] | 2 => [0; 255; 255]
          | 3 => [0; 255; 0] | 4 => [255; 0; 255] | 5 => [255; 0; 0]
          | 6 => [0; 0; 255] | 7 => [0; 0; 0] | _ => [0; 0; 0] end%Z) = 3%nat.
Proof.
  destruct b as [|p|p]; try reflexivity.
  repeat (destruct p as [p|p|]; try reflexivity).
Qed.

Lemma procedural_pixel_length (x : Z) : length (procedural_pixel x) = 4%nat.
Proof.
  unfold procedural_pixel. rewrite length_app, procedural_rgb_length. reflexivity.
Qed.

Lemma procedural_bar (x : Z) :
  (0 <= x < proc_width)%Z -> Z.quot (x * 8) proc_width = x / 80.
Proof.
  unfold proc_width. intros H.
  rewrite Z.quot_div_nonneg by lia.
  replace 640 with (80 * 8) by reflexivity. apply Z.div_mul_cancel_r; lia.
Qed.

(** The colour bars are eight 80-pixel-wide columns: column [x] gets
    bar [x / 80], every pixel is opaque, and the pixel is black exactly in
    the last bar (x >= 560), so no column keeps the zero-initialised
    colour by falling through the [switch]. *)
Theorem procedural_bars_layout (x : Z) :
  (0 <= x < proc_width)%Z ->
  Z.quot (x * 8) proc_width = x / 80 /\ (0 <= x / 80 <= 7)%Z /\
  (procedural_pixel x !! 3%nat = Some 255%Z) /\
  (take 3 (procedural_pixel x) = [0; 0; 0]%Z <-> (560 <= x)%Z).
Proof.
  intros H. pose proof (procedural_bar x H) as Hb.
  unfold proc_width in H.
  assert (Hr : (0 <= x / 80 <= 7)%Z).
  { split; [apply Z.div_pos; lia|].
    assert (x / 80 < 8)%Z by (apply Z.div_lt_upper_bound; lia). lia. }
  split; [exact Hb|]. split; [exact Hr|].
  unfold procedural_pixel. rewrite Hb.
  pose proof (Z.div_mod x 80 ltac:(lia)) as Hdm.
  pose proof (Z.mod_pos_bound x 80 ltac:(lia)) as Hm.
  assert (Hc : (x / 80 = 0 \/ x / 80 = 1 \/ x / 80 = 2 \/ x / 80 = 3 \/ x / 80 = 4 \/
                x / 80 = 5 \/ x / 80 = 6 \/ x / 80 = 7)%Z) by lia.
  destruct Hc as [E|[E|[E|[E|[E|[E|[E|E]]]]]]]; rewrite E; cbn;
    (split; [reflexivity|]); split; intros Hx; try discriminate; try lia.
  reflexivity.
Qed.

Lemma procedural_bars_layout_witness :
  (0 <= 600 < proc_width)%Z /\ take 3 (procedural_pixel 600) = [0; 0; 0]%Z.
Proof.
  split; [unfold proc_width; lia|].
  destruct (procedural_bars_layout 600) as (_ & _ & _ & Hiff);
    [unfold proc_width; lia|].
  apply Hiff. lia.
Defined.

Lemma length_concat_map_const {A B} (f : A -> list B) (l : list A) (n : nat) :
  (forall a, length (f a) = n) -> length (concat (map f l)) = (length l * n)%nat.
Proof.
  intros Hf. induction l as [|a l IH]; cbn; [reflexivity|].
  rewrite length_app, Hf, IH. lia.
Qed.

Lemma lookup_concat_map_const {A B} (f : A -> list B) (l : list A) (n i j : nat) :
  (forall a, length (f a) = n) -> (j < n)%nat ->
  concat (map f l) !! (i * n + j)%nat = (l !! i) ≫= (fun a => f a !! j).
Proof.
  intros Hf Hj. revert i. induction l as [|a l IH]; intros i; cbn.
  - destruct i; reflexivity.
  - destruct i as [|i].
    + cbn. rewrite lookup_app_l by (rewrite Hf; lia). reflexivity.
    + rewrite lookup_app_r by (rewrite Hf; lia). rewrite Hf.
      replace (S i * n + j - n)%nat with (i * n + j)%nat by lia.
      apply IH.
Qed.

(** The pattern buffer holds 640 x 480 RGBA pixels row by row: byte
    [(y * 640 + x) * 4 + k] is byte [k] of the colour of column [x], the
    same for every row [y]. *)
Theorem procedural_pattern_layout (x y k : nat) :
  (x < 640)%nat -> (y < 480)%nat -> (k < 4)%nat ->
  length procedural_pattern = (640 * 480 * 4)%nat /\
  procedural_pattern !! ((y * 640 + x) * 4 + k)%nat = procedural_pixel (Z.of_nat x) !! k.
Proof.
  intros Hx Hy Hk.
  assert (Hrow : forall y0 : nat,
             length (concat (map (fun x0 : nat => procedural_pixel (Z.of_nat x0))
                                 (seq 0 (Z.to_nat proc_width)))) = 2560%nat).
  { intros _. rewrite (length_concat_map_const _ _ 4) by (intros; apply procedural_pixel_length).
    rewrite length_seq. reflexivity. }
  split.
  - unfold procedural_pattern. rewrite (length_concat_map_const _ _ 2560) by exact Hrow.
    rewrite length_seq. change (Z.to_nat proc_height) with 480%nat. lia.
  - unfold procedural_pattern.
    replace ((y * 640 + x) * 4 + k)%nat with (y * 2560 + (x * 4 + k))%nat by lia.
    rewrite (lookup_concat_map_const _ _ 2560) by (exact Hrow || lia).
    rewrite lookup_seq_lt by (change (Z.to_nat proc_height) with 480%nat; lia).
    cbn [mbind option_bind].
    rewrite (lookup_concat_map_const _ _ 4) by (intros; apply procedural_pixel_length || lia).
    rewrite lookup_seq_lt by (change (Z.to_nat proc_width) with 640%nat; lia). reflexivity.
Qed.

Lemma procedural_pattern_layout_witness :
  (600 < 640)%nat /\ (10 < 480)%nat /\ (1 < 4)%nat /\
  procedural_pattern !! ((10 * 640 + 600) * 4 + 1)%nat = Some 0%Z.
Proof.
  split; [lia|]. split; [lia|]. split; [lia|].
  destruct (procedural_pattern_layout 600 10 1) as [_ ->]; [lia|lia|lia|].
  reflexivity.
Defined.

End StandaloneFacts.

Module CppStringFacts.
Import Offsets CppStrings.

Definition is_digit_char (c : ascii) : Prop := exists d, 0 <= d <= 9 /\ c = digit_char d.

Definition digits_step (a : Z) (c : ascii) : Z :=
  a * 10 + match digit_val c with Some d => d | None => 0 end.

Definition digits_value (D : list ascii) : Z := fold_left digits_step D 0.

Lemma list_ascii_of_string_app (a b : string) :
  list_ascii_of_string (a ++ b) = (list_ascii_of_string a ++ list_ascii_of_string b)%list.
Proof. induction a as [|c a IH]; cbn; [reflexivity|]. now rewrite IH. Qed.

Lemma digit_char_props (d : Z) :
  0 <= d <= 9 ->
  digit_val (digit_char d) = Some d /\ is_c_space (digit_char d) = false /\
  is_trim_char (digit_char d) = false /\ Ascii.eqb (digit_char d) "#"%char = false /\
  digit_char d <> "o"%char.
Proof.
  intros H.
  assert (d = 0 \/ d = 1 \/ d = 2 \/ d = 3 \/ d = 4 \/ d = 5 \/ d = 6 \/ d = 7 \/
          d = 8 \/ d = 9) as Hd by lia.
  repeat destruct Hd as [-> | Hd]; subst; vm_compute; repeat split; discriminate.
Qed.

Lemma dec_digits_spec (fuel : nat) :
  forall n acc, (0 < fuel)%nat -> 0 <= n < 10 ^ Z.of_nat fuel ->
  exists D, dec_digits fuel n acc = (D ++ acc)%list /\ D <> [] /\
            Forall is_digit_char D /\ digits_value D = n.
Proof.
  induction fuel as [|f IH]; intros n acc Hf Hn; [lia|].
  cbn [dec_digits].
  assert (Hc : is_digit_char (digit_char (n mod 10))).
  { exists (n mod 10). split; [pose proof (Z.mod_pos_bound n 10); lia | reflexivity]. }
  destruct (Z.ltb_spec n 10).
  - exists [digit_char (n mod 10)]. split; [reflexivity|]. split; [discriminate|].
    split; [constructor; [exact Hc | constructor]|].
    unfold digits_value, digits_step; cbn.
    destruct (digit_char_props (n mod 10)) as [-> _]; [pose proof (Z.mod_pos_bound n 10); lia|].
    rewrite Z.mod_small; lia.
  - assert (Hf' : (0 < f)%nat).
    { destruct f; [|lia]. exfalso. cbn in Hn.
      assert (1 <= n / 10) by (apply Z.div_le_lower_bound; lia). lia. }
    assert (Hq : 0 <= n / 10 < 10 ^ Z.of_nat f).
    { split; [apply Z.div_pos; lia|]. apply Z.div_lt_upper_bound; [lia|].
      rewrite Nat2Z.inj_succ, Z.pow_succ_r in Hn by lia. lia. }
    destruct (IH (n / 10) (digit_char (n mod 10) :: acc) Hf' Hq)
      as (D & HD & Hne & HF & Hv).
    exists (D ++ [digit_char (n mod 10)])%list. split; [rewrite HD, <- app_assoc; reflexivity|].
    split; [destruct D; [contradiction|discriminate]|].
    split; [apply Forall_app; split; [exact HF | constructor; [exact Hc | constructor]]|].
    unfold digits_value in *. rewrite fold_left_app. cbn. rewrite Hv.
    unfold digits_step.
    destruct (digit_char_props (n mod 10)) as [-> _]; [pose proof (Z.mod_pos_bound n 10); lia|].
    pose proof (Z.div_mod n 10). lia.
Qed.

Lemma read_digits_digits (D : list ascii) :
  forall rest cnt a, Forall is_digit_char D ->
  read_digits (D ++ rest) cnt a = read_digits rest (cnt + length D) (fold_left digits_step D a).
Proof.
  induction D as [|c D IH]; intros rest cnt a HF; cbn.
  - now rewrite Nat.add_0_r.
  - inversion HF as [|? ? (d & Hd & ->) HF']; subst.
    destruct (digit_char_props d Hd) as [-> _].
    rewrite IH by exact HF'. f_equal; [lia|]. unfold digits_step.
    now rewrite (proj1 (digit_char_props d Hd)).
Qed.

Definition stops (rest : list ascii) : Prop :=
  match rest with [] => True | c :: _ => digit_val c = None end.

Lemma read_digits_stop (rest : list ascii) cnt a :
  stops rest -> read_digits rest cnt a = (cnt, a, rest).
Proof. destruct rest as [|c r]; cbn; [reflexivity|]. intros ->. reflexivity. Qed.

Lemma to_string_shape (z : Z) :
  INT_MIN <= z <= INT_MAX ->
  exists D, list_ascii_of_string (to_string_int z) =
            (if z <? 0 then "-"%char :: D else D) /\ D <> [] /\
            Forall is_digit_char D /\ digits_value D = Z.abs z.
Proof.
  intros Hz. unfold to_string_int. rewrite list_ascii_of_string_of_list_ascii.
  unfold INT_MIN, INT_MAX in Hz.
  destruct (Z.ltb_spec z 0).
  - destruct (dec_digits_spec 10 (- z) [] ltac:(lia)) as (D & HD & Hne & HF & Hv).
    { change (10 ^ Z.of_nat 10) with 10000000000. lia. }
    exists D. rewrite HD, app_nil_r. repeat split; auto. lia.
  - destruct (dec_digits_spec 10 z [] ltac:(lia)) as (D & HD & Hne & HF & Hv).
    { change (10 ^ Z.of_nat 10) with 10000000000. lia. }
    exists D. rewrite HD, app_nil_r. repeat split; auto. lia.
Qed.

Lemma read_int_minus (r : list ascii) :
  read_int ("-"%char :: r) =
  match read_digits r 0 0 with
  | (O, _, _) => None
  | (_, v, rest) =>
      if (INT_MIN <=? - v) && (- v <=? INT_MAX) then Some (- v, rest) else None
  end.
Proof. reflexivity. Qed.

Lemma read_int_digit (c : ascii) (r : list ascii) :
  is_digit_char c ->
  read_int (c :: r) =
  match read_digits (c :: r) 0 0 with
  | (O, _, _) => None
  | (_, v, rest) =>
      if (INT_MIN <=? v) && (v <=? INT_MAX) then Some (v, rest) else None
  end.
Proof.
  intros (d & Hd & ->).
  assert (d = 0 \/ d = 1 \/ d = 2 \/ d = 3 \/ d = 4 \/ d = 5 \/ d = 6 \/ d = 7 \/
          d = 8 \/ d = 9) as Hd' by lia.
  repeat destruct Hd' as [-> | Hd']; subst; reflexivity.
Qed.

Lemma read_int_to_string (z : Z) (rest : list ascii) :
  INT_MIN <= z <= INT_MAX -> stops rest ->
  read_int (list_ascii_of_string (to_string_int z) ++ rest) = Some (z, rest).
Proof.
  intros Hz Hs. destruct (to_string_shape z Hz) as (D & HD & Hne & HF & Hv).
  rewrite HD. destruct (Z.ltb_spec z 0).
  - cbn [app]. rewrite read_int_minus, read_digits_digits, read_digits_stop by assumption.
    destruct D; [contradiction|]. cbn [length Nat.add].
    change (fold_left digits_step (a :: D) 0) with (digits_value (a :: D)). rewrite Hv.
    replace (- Z.abs z) with z by lia.
    destruct (Z.leb_spec INT_MIN z), (Z.leb_spec z INT_MAX); try lia. reflexivity.
  - destruct D as [|c D]; [contradiction|]. cbn [app].
    rewrite read_int_digit by (inversion HF; assumption).
    change (c :: (D ++ rest))%list with ((c :: D) ++ rest)%list.
    rewrite read_digits_digits, read_digits_stop by assumption.
    cbn [length Nat.add].
    change (fold_left digits_step (c :: D) 0) with (digits_value (c :: D)). rewrite Hv.
    replace (Z.abs z) with z by lia.
    destruct (Z.leb_spec INT_MIN z), (Z.leb_spec z INT_MAX); try lia. reflexivity.
Qed.

Lemma to_string_int_inj (a b : Z) :
  INT_MIN <= a <= INT_MAX -> INT_MIN <= b <= INT_MAX ->
  to_string_int a = to_string_int b -> a = b.
Proof.
  intros Ha Hb E.
  pose proof (read_int_to_string a [] Ha I) as Ra.
  pose proof (read_int_to_string b [] Hb I) as Rb.
  rewrite E in Ra. rewrite Ra in Rb. congruence.
Qed.


Lemma to_string_head (z : Z) :
  INT_MIN <= z <= INT_MAX ->
  exists c r, list_ascii_of_string (to_string_int z) = c :: r /\
    is_trim_char c = false /\ Ascii.eqb c "#"%char = false /\ c <> "o"%char.
Proof.
  intros Hz. destruct (to_string_shape z Hz) as (D & HD & Hne & HF & _).
  rewrite HD. destruct (z <? 0).
  - exists "-"%char, D. repeat split; try reflexivity; discriminate.
  - destruct D as [|c D]; [contradiction|]. inversion HF as [|? ? (d & Hd & ->) _]; subst.
    exists (digit_char d), D. destruct (digit_char_props d Hd) as (_ & _ & ? & ? & ?).
    auto.
Qed.

Lemma to_string_last (z : Z) :
  INT_MIN <= z <= INT_MAX ->
  exists r c, list_ascii_of_string (to_string_int z) = (r ++ [c])%list /\
    is_trim_char c = false.
Proof.
  intros Hz. destruct (to_string_shape z Hz) as (D & HD & Hne & HF & _).
  destruct (exists_last Hne) as (D0 & c & ->).
  apply Forall_app in HF as [_ HF]. inversion HF as [|? ? (d & Hd & ->) _]; subst.
  destruct (digit_char_props d Hd) as (_ & _ & Ht & _).
  rewrite HD. destruct (z <? 0).
  - exists ("-"%char :: D0), (digit_char d). auto.
  - exists D0, (digit_char d). auto.
Qed.

Lemma drop_trim_keep (c : ascii) (r : list ascii) :
  is_trim_char c = false -> drop_trim (c :: r) = c :: r.
Proof. intros H. cbn. now rewrite H. Qed.

Lemma trim_keep (c : ascii) (m : list ascii) (c' : ascii) :
  is_trim_char c = false -> is_trim_char c' = false ->
  (exists r, c :: m = r ++ [c'])%list ->
  trim (c :: m) = c :: m.
Proof.
  intros H H' (r & Hr). unfold trim. rewrite drop_trim_keep by exact H.
  rewrite Hr, rev_app_distr. cbn [rev app]. rewrite drop_trim_keep by exact H'.
  cbn [rev]. rewrite rev_involutive. reflexivity.
Qed.

(** The offset-file line that [std::to_string] produces for a pair of
    [int]s, ["<x> <y>"], is read back by [parseXYLine] as exactly [(x, y)]. *)
Lemma parseXYLine_to_string (x y : Z) :
  INT_MIN <= x <= INT_MAX -> INT_MIN <= y <= INT_MAX ->
  parseXYLine (to_string_int x ++ " " ++ to_string_int y) = Some (x, y).
Proof.
  intros Hx Hy. unfold parseXYLine.
  rewrite !list_ascii_of_string_app. cbn [list_ascii_of_string app].
  destruct (to_string_head x Hx) as (c & r & Hcr & Ht & Hh & _).
  destruct (to_string_last y Hy) as (ry & cy & Hry & Hty).
  assert (Htrim : trim (list_ascii_of_string (to_string_int x) ++ " "%char :: list_ascii_of_string (to_string_int y))
                  = list_ascii_of_string (to_string_int x) ++ " "%char :: list_ascii_of_string (to_string_int y)).
  { rewrite Hcr. cbn [app]. apply (trim_keep c _ cy Ht Hty).
    exists (c :: r ++ " "%char :: ry)%list. rewrite Hry. cbn [app].
    now rewrite <- app_assoc. }
  rewrite Htrim. rewrite Hcr at 1. cbn [app]. rewrite Hh.
  rewrite read_int_to_string by (auto; reflexivity).
  change (read_int (" "%char :: list_ascii_of_string (to_string_int y)))
    with (read_int (list_ascii_of_string (to_string_int y))).
  rewrite <- (app_nil_r (list_ascii_of_string (to_string_int y))).
  rewrite read_int_to_string by (auto; exact I). reflexivity.
Qed.

Lemma parseXYLine_to_string_witness :
  (INT_MIN <= -12 <= INT_MAX /\ INT_MIN <= 345 <= INT_MAX) /\
  parseXYLine (to_string_int (-12) ++ " " ++ to_string_int 345) = Some (-12, 345).
Proof.
  split; [unfold INT_MIN, INT_MAX; lia|].
  apply parseXYLine_to_string; unfold INT_MIN, INT_MAX; lia.
Defined.


Lemma buildModuleFilenames_nth (s : list Z) (i : nat) :
  (i < 3)%nat ->
  nth i (buildModuleFilenames s) ""%string =
  if Z.eqb (nth i s 0) 0
  then ("modul" ++ to_string_int (Z.of_nat i + 1) ++ ".txt")%string
  else ("m" ++ to_string_int (nth i s 0) ++ ".txt")%string.
Proof. intros H. destruct i as [|[|[|i]]]; [reflexivity..|lia]. Qed.

Lemma string_app_inv_tail (a b t : string) : (a ++ t = b ++ t)%string -> a = b.
Proof.
  intros E. apply (f_equal list_ascii_of_string) in E.
  rewrite !list_ascii_of_string_app in E. apply app_inv_tail in E.
  rewrite <- (string_of_list_ascii_of_string a), <- (string_of_list_ascii_of_string b).
  now rewrite E.
Qed.

Lemma modul_ne_m (i : nat) (z : Z) :
  INT_MIN <= z <= INT_MAX ->
  ("modul" ++ to_string_int (Z.of_nat i + 1) ++ ".txt")%string <>
  ("m" ++ to_string_int z ++ ".txt")%string.
Proof.
  intros Hz E. destruct (to_string_head z Hz) as (c & r & Hcr & _ & _ & Ho).
  cbn [String.append] in E. injection E as E.
  apply (f_equal list_ascii_of_string) in E.
  rewrite list_ascii_of_string_app, Hcr in E. cbn in E. injection E as E _. auto.
Qed.

(** Two of the three module slots get the same offset file name exactly
    when they are the same slot or carry the same nonzero serial; a zero
    serial never collides with another slot. *)
Lemma buildModuleFilenames_same_name (s : list Z) (i j : nat) :
  (i < 3)%nat -> (j < 3)%nat -> Forall (fun z => INT_MIN <= z <= INT_MAX) s ->
  nth i (buildModuleFilenames s) ""%string = nth j (buildModuleFilenames s) ""%string <->
  i = j \/ (nth i s 0 = nth j s 0 /\ nth i s 0 <> 0).
Proof.
  intros Hi Hj HF.
  assert (Hr : forall k, INT_MIN <= nth k s 0 <= INT_MAX).
  { intros k. destruct (decide (k < length s)%nat).
    - rewrite List.Forall_forall in HF. apply HF, nth_In. lia.
    - rewrite nth_overflow by lia. unfold INT_MIN, INT_MAX; lia. }
  rewrite !buildModuleFilenames_nth by assumption.
  destruct (Z.eqb_spec (nth i s 0) 0) as [Ha|Ha], (Z.eqb_spec (nth j s 0) 0) as [Hb|Hb].
  - split; [|intros [->|[_ ?]]; [reflexivity|contradiction]].
    intros E. left.
    destruct i as [|[|[|i]]], j as [|[|[|j]]]; try lia; vm_compute in E; congruence.
  - split; [intros E; exfalso; exact (modul_ne_m i _ (Hr j) E)|].
    intros [->|[? _]]; [contradiction|congruence].
  - split; [intros E; exfalso; exact (modul_ne_m j _ (Hr i) (eq_sym E))|].
    intros [->|[? _]]; [contradiction|congruence].
  - split.
    + intros E. right. split; [|exact Ha].
      cbn [String.append] in E. injection E as E.
      apply string_app_inv_tail in E. exact (to_string_int_inj _ _ (Hr i) (Hr j) E).
    + intros [->|[-> _]]; reflexivity.
Qed.

Lemma buildModuleFilenames_same_name_witness :
  ((0 < 3)%nat /\ (2 < 3)%nat /\ Forall (fun z => INT_MIN <= z <= INT_MAX) [7; 0; 7]) /\
  (nth 0 (buildModuleFilenames [7; 0; 7]) ""%string =
   nth 2 (buildModuleFilenames [7; 0; 7]) ""%string <->
   0%nat = 2%nat \/ (nth 0 [7; 0; 7] 0 = nth 2 [7; 0; 7] 0 /\ nth 0 [7; 0; 7] 0 <> 0)).
Proof.
  assert (HF : Forall (fun z => INT_MIN <= z <= INT_MAX) [7; 0; 7]).
  { repeat constructor; unfold INT_MIN, INT_MAX; lia. }
  split; [split; [lia|split; [lia|exact HF]]|].
  apply buildModuleFilenames_same_name; [lia|lia|exact HF].
Defined.

Lemma byte_char_roundtrip (b : Z) :
  0 <= b < 256 -> Z.of_nat (nat_of_ascii (byte_char b)) = b.
Proof.
  intros H. unfold byte_char. rewrite nat_ascii_embedding by lia. lia.
Qed.

Lemma byte_char_nonzero (b : Z) :
  0 < b < 256 -> Ascii.eqb (byte_char b) "000"%char = false.
Proof.
  intros H. destruct (Ascii.eqb_spec (byte_char b) "000"%char) as [E|]; [|reflexivity].
  apply (f_equal nat_of_ascii) in E. apply (f_equal Z.of_nat) in E.
  rewrite byte_char_roundtrip in E by lia. change (Z.of_nat (nat_of_ascii "000"%char)) with 0 in E. lia.
Qed.

Lemma fourcc_byte (f : Z) (k : Z) :
  0 <= k -> Z.land (Z.shiftr f (8 * k)) 255 = (f / 2 ^ (8 * k)) mod 256.
Proof.
  intros Hk. rewrite Z.shiftr_div_pow2 by lia.
  change 255 with (Z.ones 8). rewrite Z.land_ones by lia. reflexivity.
Qed.

(** For a pixel format code whose four bytes are all nonzero,
    [fourcc_to_str] gives four characters, least significant byte first,
    from which the code is recovered. *)
Lemma fourcc_to_str_roundtrip (f : Z) :
  0 <= f < 2 ^ 32 ->
  (forall k, 0 <= k < 4 -> Z.land (Z.shiftr f (8 * k)) 255 <> 0) ->
  String.length (fourcc_to_str f) = 4%nat /\
  fold_right (fun c acc => Z.of_nat (nat_of_ascii c) + 256 * acc) 0
    (list_ascii_of_string (fourcc_to_str f)) = f.
Proof.
  intros Hf Hnz.
  pose proof (fourcc_byte f 1 ltac:(lia)) as B1.
  pose proof (fourcc_byte f 2 ltac:(lia)) as B2.
  pose proof (fourcc_byte f 3 ltac:(lia)) as B3.
  pose proof (Hnz 0 ltac:(lia)) as N0. pose proof (Hnz 1 ltac:(lia)) as N1.
  pose proof (Hnz 2 ltac:(lia)) as N2. pose proof (Hnz 3 ltac:(lia)) as N3.
  change (8 * 0) with 0 in N0. change (8 * 1) with 8 in B1, N1.
  change (8 * 2) with 16 in B2, N2. change (8 * 3) with 24 in B3, N3.
  rewrite Z.shiftr_0_r in N0.
  rewrite B1 in N1. rewrite B2 in N2. rewrite B3 in N3.
  assert (B0 : Z.land f 255 = f mod 256).
  { change 255 with (Z.ones 8). rewrite Z.land_ones by lia. reflexivity. }
  rewrite B0 in N0.
  unfold fourcc_to_str. rewrite B0, B1, B2, B3.
  set (q1 := f / 2 ^ 8) in *. set (q2 := f / 2 ^ 16) in *. set (q3 := f / 2 ^ 24) in *.
  assert (E1 : f = 256 * q1 + f mod 256) by (apply Z.div_mod; lia).
  assert (E2 : q1 = 256 * q2 + q1 mod 256).
  { replace q2 with (q1 / 256). apply Z.div_mod; lia.
    unfold q1, q2. rewrite Z.div_div by lia. reflexivity. }
  assert (E3 : q2 = 256 * q3 + q2 mod 256).
  { replace q3 with (q2 / 256). apply Z.div_mod; lia.
    unfold q2, q3. rewrite Z.div_div by lia. reflexivity. }
  assert (Q3 : 0 <= q3 < 256).
  { unfold q3. split; [apply Z.div_pos; lia|]. apply Z.div_lt_upper_bound; lia. }
  rewrite (Z.mod_small q3) in * by exact Q3.
  pose proof (Z.mod_pos_bound f 256 ltac:(lia)).
  pose proof (Z.mod_pos_bound q1 256 ltac:(lia)).
  pose proof (Z.mod_pos_bound q2 256 ltac:(lia)).
  cbn [c_str]. rewrite !byte_char_nonzero by lia.
  rewrite list_ascii_of_string_of_list_ascii. split; [reflexivity|].
  cbn [fold_right]. rewrite !byte_char_roundtrip by lia.
  change (Ascii.eqb "000"%char "000"%char) with true. cbn [fold_right]. lia.
Qed.

Lemma fourcc_to_str_roundtrip_witness :
  (0 <= 1448695129 < 2 ^ 32 /\
   (forall k, 0 <= k < 4 -> Z.land (Z.shiftr 1448695129 (8 * k)) 255 <> 0)) /\
  String.length (fourcc_to_str 1448695129) = 4%nat.
Proof.
  assert (H : forall k, 0 <= k < 4 -> Z.land (Z.shiftr 1448695129 (8 * k)) 255 <> 0).
  { intros k Hk. assert (k = 0 \/ k = 1 \/ k = 2 \/ k = 3) as [-> | [-> | [-> | ->]]] by lia;
    vm_compute; discriminate. }
  split; [split; [lia|exact H]|].
  exact (proj1 (fourcc_to_str_roundtrip 1448695129 ltac:(lia) H)).
Defined.

End CppStringFacts.

Module ShaderMoreFacts.
Import Shader.
Local Open Scope Q_scope.

Lemma land3_mod4 (k : Z) : Z.land k 3 = (k mod 4)%Z.
Proof. change 3%Z with (Z.ones 2). rewrite Z.land_ones by lia. reflexivity. Qed.

(** The rotation depends on the step only modulo 4, for negative steps
    as well: [k & 3] is [k mod 4] in two's complement. *)
Theorem rotate90_centered_step_mod4 (uv : vec2) (k : Z) :
  rotate90_centered uv k = rotate90_centered uv (k mod 4).
Proof. unfold rotate90_centered. rewrite !land3_mod4, Zmod_mod. reflexivity. Qed.

Lemma Qclamp_unit (x : Q) : 0 <= Qclamp x 0 1 <= 1.
Proof.
  unfold Qclamp. split.
  - apply Q.min_glb; [apply Q.le_max_r | discriminate].
  - apply Q.le_min_r.
Qed.

(** Whatever the uniforms and the pixel, a sampled fragment reads the
    texture at a coordinate inside the unit square. *)
Theorem shader_main_sample_in_unit_square (u : uniforms) (outPx : vec2) (uv : vec2) :
  shader_main u outPx = Sampled uv ->
  0 <= vx uv <= 1 /\ 0 <= vy uv <= 1.
Proof.
  unfold shader_main. cbv zeta. intros H.
  repeat match type of H with (if ?b then _ else _) = _ => destruct b end;
    try discriminate H.
  match type of H with Sampled (V2 (Qclamp ?a 0 1) (Qclamp ?b 0 1)) = _ =>
    generalize dependent a; generalize dependent b end.
  intros B A H. injection H as <-. cbn [vx vy]. split; apply Qclamp_unit.
Qed.


Lemma shader_main_sample_in_unit_square_witness :
  match shader_main example_uniforms (V2 (241/2) (501/2)) with
  | Sampled uv => 0 <= vx uv <= 1 /\ 0 <= vy uv <= 1
  | Background => False
  end.
Proof.
  destruct (shader_main example_uniforms (V2 (241/2) (501/2))) as [|uv] eqn:E.
  - vm_compute in E. discriminate E.
  - exact (shader_main_sample_in_unit_square example_uniforms (V2 (241/2) (501/2)) uv E).
Defined.

Lemma Qltb_iff' (a b : Q) : Qltb a b = true <-> a < b.
Proof.
  unfold Qltb. rewrite negb_true_iff. split.
  - intros H. apply Qnot_le_lt. intros Hle. apply Qle_bool_iff in Hle. congruence.
  - intros H. destruct (Qle_bool b a) eqn:E; [|done].
    apply Qle_bool_iff in E. exfalso. apply (Qlt_not_le a b); done.
Qed.

Lemma tile_row_loop_found (u : uniforms) (y : Q) (fuel : nat) :
  forall (r : nat) (acc : Q) (k : Z),
  tile_row_loop u y r fuel acc = k -> (0 <= k)%Z ->
  exists m : nat, k = Z.of_nat (r + m) /\ (k < u_numTilesPerCol u)%Z /\
    start_top_loop u r m acc <= y < start_top_loop u r m acc + u_tileH u.
Proof.
  induction fuel as [|f IH]; intros r acc k H Hk; cbn [tile_row_loop] in H.
  - lia.
  - destruct (Z.ltb_spec (Z.of_nat r) (u_numTilesPerCol u)) as [Hr|Hr]; [|lia].
    destruct (Qle_bool acc y && Qltb y (acc + u_tileH u)) eqn:E.
    + apply andb_true_iff in E as [E1 E2].
      apply Qle_bool_iff in E1. apply Qltb_iff' in E2.
      exists 0%nat. rewrite Nat.add_0_r. split; [congruence|]. split; [lia|].
      cbn [start_top_loop]. split; assumption.
    + destruct (IH _ _ _ H Hk) as (m & -> & Hlt & Hin).
      exists (S m). split; [f_equal; lia|]. split; [exact Hlt|]. exact Hin.
Qed.

(** When the row search of [main] finds a row, that row is in the grid
    and the pixel's distance from the top of the grid lies in the row's
    span [[start, start + tileH)], where [start] is the [tileStartY_top]
    the shader computes for it. *)
Theorem tile_row_contains_pixel (u : uniforms) (outPx : vec2) :
  (0 <= tile_row u outPx)%Z ->
  (tile_row u outPx < u_numTilesPerCol u)%Z /\
  let start := start_top_loop u 0 (Z.to_nat (tile_row u outPx)) 0 in
  start <= total_grid_h u - vy outPx < start + u_tileH u.
Proof.
  intros Hk. unfold tile_row in *.
  destruct (tile_row_loop_found u _ _ 0 0 _ eq_refl Hk) as (m & Hm & Hlt & Hin).
  rewrite Hm, Nat2Z.id. cbn [Nat.add]. split; [lia|exact Hin].
Qed.

Lemma tile_row_contains_pixel_witness :
  (0 <= tile_row default_uniforms (V2 (1/2) (3279/2)))%Z /\
  (tile_row default_uniforms (V2 (1/2) (3279/2)) < u_numTilesPerCol default_uniforms)%Z.
Proof.
  assert (H : (0 <= tile_row default_uniforms (V2 (1/2) (3279/2)))%Z) by (vm_compute; discriminate).
  split; [exact H|]. exact (proj1 (tile_row_contains_pixel _ _ H)).
Defined.

(** [tileCol] truncates toward zero: right of the margin it is the floor
    of the column position, and a pixel less than one tile pitch left of
    the margin is put in column 0, not in column -1. *)
Theorem tile_col_truncates (u : uniforms) (outPx : vec2) :
  0 < u_tileW u + u_spacingX u ->
  (u_marginX u <= vx outPx ->
     tile_col u outPx = Qfloor ((vx outPx - u_marginX u) / (u_tileW u + u_spacingX u))) /\
  (u_marginX u - (u_tileW u + u_spacingX u) < vx outPx < u_marginX u ->
     tile_col u outPx = 0%Z).
Proof.
  intros Hp. unfold tile_col, glsl_int.
  set (d := u_tileW u + u_spacingX u) in *.
  set (x := vx outPx - u_marginX u).
  split.
  - intros Hx. assert (Hx0 : 0 <= x / d).
    { apply Qle_shift_div_l; [exact Hp|]. unfold x. rewrite Qmult_0_l.
      apply (Qplus_le_l _ _ (u_marginX u)). ring_simplify. exact Hx. }
    apply Qle_bool_iff in Hx0. now rewrite Hx0.
  - intros [Hl Hr].
    assert (Hneg : x / d < 0).
    { apply Qlt_shift_div_r; [exact Hp|]. unfold x. rewrite Qmult_0_l.
      apply (Qplus_lt_l _ _ (u_marginX u)). ring_simplify. exact Hr. }
    assert (Hgt : -1 < x / d).
    { apply Qlt_shift_div_l; [exact Hp|]. unfold x.
      lra. }
    destruct (Qle_bool 0 (x / d)) eqn:E.
    + apply Qle_bool_iff in E. exfalso. apply (Qlt_not_le _ _ Hneg E).
    + assert (F : Qfloor (- (x / d)) = 0%Z).
      { apply Z.le_antisymm.
        - assert (H1 : inject_Z (Qfloor (- (x / d))) < inject_Z 1).
          { apply Qle_lt_trans with (- (x / d)); [apply Qfloor_le|].
            change (inject_Z 1) with 1.
            lra. }
          rewrite <- Zlt_Qlt in H1. lia.
        - change 0%Z with (Qfloor 0). apply Qfloor_resp_le.
          lra. }
      rewrite F. reflexivity.
Qed.


Lemma tile_col_truncates_witness :
  0 < u_tileW default_uniforms + u_spacingX default_uniforms /\
  tile_col default_uniforms (V2 (-1/2) 0) = 0%Z.
Proof.
  assert (H : 0 < u_tileW default_uniforms + u_spacingX default_uniforms)
    by (vm_compute; reflexivity).
  split; [exact H|].
  apply (proj2 (tile_col_truncates default_uniforms (V2 (-1/2) 0) H)).
  split; vm_compute; reflexivity.
Defined.

End ShaderMoreFacts.

Module KeyMoreFacts.
Import Keys.

Definition key_eq_dec (a b : key) : {a = b} + {a <> b}.
Proof. decide equality. Defined.

Definition key_count (k : key) (ks : list key) : Z :=
  Z.of_nat (length (List.filter (fun k' => if key_eq_dec k k' then true else false) ks)).

Lemma key_count_cons (k k' : key) (ks : list key) :
  key_count k (k' :: ks) = ((if key_eq_dec k k' then 1 else 0) + key_count k ks)%Z.
Proof. unfold key_count. cbn [List.filter]. destruct (key_eq_dec k k'); cbn [length]; lia. Qed.

Lemma c_not_mod2 (x : Z) : (x = 0 \/ x = 1)%Z -> c_not x = ((x + 1) mod 2)%Z.
Proof. intros [-> | ->]; reflexivity. Qed.

Lemma land3 (x : Z) : Z.land x 3 = (x mod 4)%Z.
Proof. change 3%Z with (Z.ones 2). rewrite Z.land_ones by lia. reflexivity. Qed.

Lemma c_not_01 (x : Z) : (x = 0 \/ x = 1)%Z -> (c_not x = 0 \/ c_not x = 1)%Z.
Proof. intros [-> | ->]; cbn; auto. Qed.

Lemma land_half_turn (r : Z) : (r = 0 \/ r = 2)%Z -> (Z.land (r + 2) 3 = 0 \/ Z.land (r + 2) 3 = 2)%Z.
Proof. intros [-> | ->]; cbn; auto. Qed.

Lemma fold_handle_key (ks : list key) :
  forall t, (rotation t = 0 \/ rotation t = 2)%Z -> (flip_x t = 0 \/ flip_x t = 1)%Z ->
  (flip_y t = 0 \/ flip_y t = 1)%Z ->
  fold_left handle_key ks t =
  {| rotation := ((rotation t + 2 * key_count SDLK_r ks) mod 4)%Z;
     flip_x := ((flip_x t + key_count SDLK_h ks) mod 2)%Z;
     flip_y := ((flip_y t + key_count SDLK_v ks) mod 2)%Z |}.
Proof.
  induction ks as [|k ks IH]; intros [r fx fy] Hr Hx Hy; cbn [rotation flip_x flip_y] in *.
  - unfold key_count; cbn.
    f_equal; [destruct Hr as [-> | ->] | destruct Hx as [-> | ->] | destruct Hy as [-> | ->]];
      reflexivity.
  - cbn [fold_left]. rewrite !key_count_cons.
    destruct k; cbn [handle_key];
      repeat match goal with |- context [(if key_eq_dec ?a ?b then 1 else 0)%Z] =>
        let v := eval compute in (if key_eq_dec a b then 1 else 0)%Z in
        change (if key_eq_dec a b then 1 else 0)%Z with v end;
      (rewrite IH by (cbn [rotation flip_x flip_y];
         first [ assumption | apply c_not_01; assumption | apply land_half_turn; assumption ]));
      cbn [rotation flip_x flip_y]; f_equal;
      rewrite ?land3, ?c_not_mod2 by assumption;
      rewrite ?Z.add_mod_idemp_l by lia; f_equal; lia.
Qed.

(** The transform after any sequence of key presses depends only on how
    many times 'h', 'v' and 'r' were pressed: each 'h' toggles the
    horizontal flip, each 'v' the vertical one, and each 'r' adds a half
    turn; the order of the presses does not matter. *)
Theorem run_keys_counts (ks : list key) :
  run_keys ks =
  {| rotation := ((2 * key_count SDLK_r ks) mod 4)%Z;
     flip_x := (key_count SDLK_h ks mod 2)%Z;
     flip_y := ((1 + key_count SDLK_v ks) mod 2)%Z |}.
Proof.
  unfold run_keys. rewrite fold_handle_key by (cbn; auto). reflexivity.
Qed.

End KeyMoreFacts.

Module DisplayFacts.
Import Standalone Display CppStringFacts.

Lemma back_snoc (l : list ascii) (c : ascii) : back (l ++ [c]) = Some c.
Proof.
  induction l as [|a l IH]; [reflexivity|]. cbn [app].
  destruct l as [|b l]; [reflexivity|]. exact IH.
Qed.

Lemma back_none (l : list ascii) : back l = None -> l = [].
Proof. destruct l as [|a [|b l]]; cbn; [auto|discriminate|]. intros H. exfalso.
  revert b H. induction l as [|c l IH]; intros b H; [discriminate|]. exact (IH c H). Qed.

Lemma back_some (l : list ascii) (c : ascii) : back l = Some c -> exists l', l = l' ++ [c].
Proof.
  induction l as [|a l IH]; [discriminate|]. destruct l as [|b l].
  - intros H. injection H as <-. exists []. reflexivity.
  - intros H. destruct (IH H) as (l' & E). exists (a :: l'). rewrite E. reflexivity.
Qed.

(** The display program's executable directory always ends in '/' or
    '\', unless [SDL_GetBasePath] returned an empty string, which is kept
    as it is. *)
Theorem getExecutableDir_trailing_sep (sdl_base readlink : option string) :
  (sdl_base = Some ""%string /\ getExecutableDir sdl_base readlink = ""%string) \/
  exists c, back (list_ascii_of_string (getExecutableDir sdl_base readlink)) = Some c /\
            is_sep c = true.
Proof.
  unfold getExecutableDir.
  destruct sdl_base as [dir|].
  - destruct (back (list_ascii_of_string dir)) as [c|] eqn:B.
    + right. destruct (is_sep c) eqn:S.
      * exists c. split; assumption.
      * exists "/"%char. rewrite list_ascii_of_string_app. split; [apply back_snoc|reflexivity].
    + left. apply back_none in B.
      rewrite <- (string_of_list_ascii_of_string dir), B. split; reflexivity.
  - right. destruct readlink as [path|]; [|exists "/"%char; split; reflexivity].
    destruct (String.eqb path ""); [exists "/"%char; split; reflexivity|].
    destruct (last_slash_prefix (list_ascii_of_string path)); [|exists "/"%char; split; reflexivity].
    exists "/"%char. rewrite list_ascii_of_string_of_list_ascii. split; [apply back_snoc|reflexivity].
Qed.

Lemma string_app_assoc (a b c : string) : (a ++ b ++ c = (a ++ b) ++ c)%string.
Proof. induction a as [|x a IH]; cbn; [reflexivity|]. now rewrite IH. Qed.

(** Joining the executable directory with a file name, as the offset
    loader does, never inserts a separator of its own: the result is the
    directory followed directly by the name. *)
Theorem joinPath_exeDir (sdl_base readlink : option string) (name : string) :
  joinPath (getExecutableDir sdl_base readlink) name =
  (getExecutableDir sdl_base readlink ++ name)%string.
Proof.
  unfold joinPath.
  destruct (getExecutableDir_trailing_sep sdl_base readlink) as [[_ ->] | (c & -> & S)].
  - reflexivity.
  - rewrite S. reflexivity.
Qed.

Lemma try_candidates_spec (fe : string -> bool) (cs : list string) :
  let '(p, a) := try_candidates fe cs in
  (p = ""%string /\ a = cs /\ Forall (fun q => fe q = false) cs) \/
  (exists pre post, cs = pre ++ p :: post /\ a = pre ++ [p] /\ fe p = true /\
                    Forall (fun q => fe q = false) pre).
Proof.
  induction cs as [|q cs IH]; cbn [try_candidates].
  - left. repeat split. constructor.
  - destruct (fe q) eqn:E.
    + right. exists [], cs. repeat split; [exact E|constructor].
    + destruct (try_candidates fe cs) as [p a].
      destruct IH as [(-> & -> & HF) | (pre & post & -> & -> & Hp & HF)].
      * left. repeat split. constructor; assumption.
      * right. exists (q :: pre), post. repeat split; [exact Hp|]. constructor; assumption.
Qed.

Lemma shader_candidates_suffix (exeDir name : string) :
  Forall (fun q => exists d, q = (d ++ name)%string) (shader_candidates exeDir name).
Proof.
  unfold shader_candidates.
  apply List.Forall_cons; [exists ""%string; reflexivity|].
  apply Forall_app; split.
  - destruct (String.eqb exeDir ""); [apply List.Forall_nil|].
    apply List.Forall_cons; [exists exeDir; reflexivity|].
    apply List.Forall_cons; [exists (exeDir ++ "shaders/")%string; apply string_app_assoc|].
    apply List.Forall_cons; [exists (exeDir ++ "../")%string; apply string_app_assoc|].
    apply List.Forall_cons; [exists (exeDir ++ "../shaders/")%string; apply string_app_assoc|].
    apply List.Forall_cons; [exists (exeDir ++ "../../shaders/")%string; apply string_app_assoc|].
    apply List.Forall_cons; [exists (exeDir ++ "assets/")%string; apply string_app_assoc|].
    apply List.Forall_nil.
  - apply List.Forall_cons; [exists "shaders/"%string; reflexivity|].
    apply List.Forall_cons; [exists "/usr/local/share/hdmi-in-display/shaders/"%string; reflexivity|].
    apply List.Forall_cons; [exists "/usr/share/hdmi-in-display/shaders/"%string; reflexivity|].
    apply List.Forall_nil.
Qed.

(** [findShaderFile] with a non-empty name records in [*outAttempts] the
    candidates it tried, in order, up to and including the one it returns;
    the path returned is the first candidate that exists, and it always
    ends with the requested name.  When none exists it returns "" and has
    recorded every candidate. *)
Theorem findShaderFile_first_existing (fe : string -> bool) (sdl_base readlink : option string)
  (name : string) (attempts : list string) :
  name <> ""%string ->
  let cs := shader_candidates (getExecutableDir sdl_base readlink) name in
  let '(p, a) := findShaderFile fe sdl_base readlink name attempts in
  (p = ""%string /\ a = cs /\ Forall (fun q => fe q = false) cs) \/
  (exists pre post, cs = pre ++ p :: post /\ a = pre ++ [p] /\ fe p = true /\
                    Forall (fun q => fe q = false) pre /\
                    exists d, p = (d ++ name)%string).
Proof.
  intros Hn. cbv zeta. unfold findShaderFile.
  destruct (String.eqb_spec name "") as [E|_]; [contradiction|].
  pose proof (try_candidates_spec fe (shader_candidates (getExecutableDir sdl_base readlink) name)) as H.
  pose proof (shader_candidates_suffix (getExecutableDir sdl_base readlink) name) as HS.
  destruct (try_candidates fe _) as [p a].
  destruct H as [H | (pre & post & Hcs & Ha & Hp & HF)]; [left; exact H|].
  right. exists pre, post. repeat split; try assumption.
  rewrite Hcs in HS. apply Forall_app in HS as [_ HS]. inversion HS; assumption.
Qed.

Lemma findShaderFile_first_existing_witness :
  "shader.frag.glsl"%string <> ""%string /\
  fst (findShaderFile (fun p => String.eqb p "/opt/app/shaders/shader.frag.glsl")
         None (Some "/opt/app/hdmi"%string) "shader.frag.glsl" []) =
  "/opt/app/shaders/shader.frag.glsl"%string.
Proof.
  assert (Hn : "shader.frag.glsl"%string <> ""%string) by discriminate.
  split; [exact Hn|].
  pose proof (findShaderFile_first_existing (fun p => String.eqb p "/opt/app/shaders/shader.frag.glsl")
         None (Some "/opt/app/hdmi"%string) "shader.frag.glsl" [] Hn) as H.
  vm_compute. reflexivity.
Defined.

End DisplayFacts.

Module StandaloneMoreFacts.
Import Standalone CppStringFacts.

Lemma last_slash_prefix_none (l : list ascii) :
  Forall (fun c => c <> "/"%char) l -> last_slash_prefix l = None.
Proof.
  induction l as [|c l IH]; intros HF; [reflexivity|].
  inversion HF as [|? ? Hc HF']; subst. cbn. rewrite IH by exact HF'.
  destruct (Ascii.eqb_spec c "/"%char); [contradiction|reflexivity].
Qed.

Lemma last_slash_prefix_last (d b : list ascii) :
  Forall (fun c => c <> "/"%char) b ->
  last_slash_prefix (d ++ "/"%char :: b) = Some d.
Proof.
  intros Hb. induction d as [|c d IH]; cbn [app last_slash_prefix].
  - rewrite last_slash_prefix_none by exact Hb. reflexivity.
  - rewrite IH. reflexivity.
Qed.

(** The test-pattern program's [getExecutableDir] is the link target of
    [/proc/self/exe] cut before its last '/', without the '/': for a
    binary [d/b] it is [d], and for a binary in the root directory it is
    the empty string. *)
Theorem getExecutableDir_dirname (d b : string) :
  Forall (fun c => c <> "/"%char) (list_ascii_of_string b) ->
  getExecutableDir (Some (d ++ "/" ++ b)%string) = d.
Proof.
  intros Hb. unfold getExecutableDir.
  destruct (String.eqb_spec (d ++ "/" ++ b) "") as [E|_].
  - exfalso. apply (f_equal list_ascii_of_string) in E.
    rewrite !list_ascii_of_string_app in E.
    destruct (list_ascii_of_string d); discriminate E.
  - rewrite !list_ascii_of_string_app. cbn [list_ascii_of_string app].
    rewrite last_slash_prefix_last by exact Hb.
    apply string_of_list_ascii_of_string.
Qed.

Lemma getExecutableDir_dirname_witness :
  Forall (fun c => c <> "/"%char) (list_ascii_of_string "hdmi_test") /\
  test_pattern_search_paths (getExecutableDir (Some "/hdmi_test"%string)) =
  test_pattern_search_paths "".
Proof.
  assert (Hb : Forall (fun c => c <> "/"%char) (list_ascii_of_string "hdmi_test")).
  { repeat constructor; discriminate. }
  split; [exact Hb|].
  exact (f_equal test_pattern_search_paths (getExecutableDir_dirname "" "hdmi_test" Hb)).
Defined.

End StandaloneMoreFacts.

Module SupervisorInvariantWitness.
Import Supervisor SupervisorInvariantFacts.

Lemma signal_lost_shows_pattern_witness :
  signal_lost (run (initial_state 0) [MainIter 10 (DqEINVAL false) []]) = true /\
  pattern_on (run (initial_state 0) [MainIter 10 (DqEINVAL false) []]) = true.
Proof.
  assert (H : signal_lost (run (initial_state 0) [MainIter 10 (DqEINVAL false) []]) = true)
    by reflexivity.
  split; [exact H|]. exact (signal_lost_shows_pattern 0 [MainIter 10 (DqEINVAL false) []] H).
Defined.

End SupervisorInvariantWitness.
